(** * MyAnimeSync: the local-state persistence and synchronisation engine

    A shallow embedding of the client-side state engine of the tracker
    (src/hooks/use-auth.tsx, bundled in src/src/hooks/use-image-cache.tsx, and
    the helpers of src/src/lib/anilist/requests.ts), with theorems about

    - the list-data mutation funnel and its storage-quota guard,
    - the list-membership toggles and the tracked-media reconciliation,
    - reminder due-ness and the reminder scheduler,
    - the shared-data sync client,
    - the hidden-genre computation for catalogue queries.

    Conventions of the embedding.

    - React state ([useState]) and the IndexedDB key-value store are explicit
      fields of a world record; every operation is a function from worlds to
      worlds.  An operation together with the persistence it starts is one
      atomic step, and a timer callback ([setTimeout]) is a second step applied
      to the world the first one left.
    - Wall-clock readings ([new Date()], [Date.now()]) are an argument [now],
      an integer number of milliseconds since the epoch; one call of an
      operation reads one instant.  ISO date strings are identified with the
      instant they denote, and calendar arithmetic is done in a time zone with
      a fixed offset (UTC).
    - [uuidv4()] draws from a counter kept in the world.
    - Media identifiers are integers ([number] in the source). *)

From stdpp Require Import base decidable option list gmap strings sorting infinite.
From Stdlib Require Import ZArith Lia.

Local Open Scope string_scope.
Local Open Scope Z_scope.
Local Open Scope list_scope.

(** ** Data model (src/hooks/auth/types as used by the code) *)

(** Identifiers: [uuidv4()] values and the [`storage-warning-${Date.now()}`]
    ids of storage notifications. *)
Inductive Ident :=
  | Uuid (n : nat)
  | StorageWarningId (ms : Z).

#[global] Instance Ident_eq_dec : EqDecision Ident.
Proof. solve_decision. Defined.

(** The fields of a media record ([Anime]) that the engine reads. *)
Record Anime := {
  a_id : Z;
  a_type : string;
  a_title : string;
  a_episodes : option Z;
  a_chapters : option Z;
  a_volumes : option Z;
  a_synopsis : option string;
}.

(** [const { synopsis, ...mediaWithoutSynopsis } = media] *)
Definition withoutSynopsis (m : Anime) : Anime :=
  {| a_id := a_id m; a_type := a_type m; a_title := a_title m;
     a_episodes := a_episodes m; a_chapters := a_chapters m;
     a_volumes := a_volumes m; a_synopsis := None |}.

(** The tagged union [UserNotification]: the discriminant [type] with the
    fields particular to each variant, and the fields all variants share. *)
Inductive NotificationType :=
  | news (mediaId : Z) (isManga : bool) (thumbnail : string)
  | reminder (reminderId : Ident) (mediaId : Z)
  | storage.

Record UserNotification := {
  n_id : Ident;
  n_type : NotificationType;
  n_title : string;
  n_message : string;
  n_timestamp : Z;
  n_seen : bool;
}.

Record Reminder := {
  r_id : Ident;
  r_mediaId : Z;
  r_title : string;
  r_notes : string;
  startDateTime : Z;
  repeatIntervalDays : Z;
  repeatOnDays : option (list Z);
  autoStopOnCompletion : bool;
}.

Record ReadChapters := {
  read : list string;
  lastRead : Z;
}.

(** [ListData], restricted to the fields the modelled operations read or
    write.  Object keys of [watchedEpisodes] and [readChapters] are media ids
    ([String(id)] and [id] index the same property). *)
Record ListData := {
  planToWatch : list Z;
  currentlyWatching : list Z;
  watchedEpisodes : gmap Z (list string);
  planToRead : list Z;
  currentlyReading : list Z;
  readChapters : gmap Z ReadChapters;
  notifications : list UserNotification;
  reminders : list Reminder;
  hiddenGenres : list string;
  sensitiveContentUnlocked : bool;
  storageQuota : Z;
}.

(** [Partial<ListData>]: the object a transformer returns; an absent key is
    [None]. *)
Record PartialListData := {
  p_planToWatch : option (list Z);
  p_currentlyWatching : option (list Z);
  p_watchedEpisodes : option (gmap Z (list string));
  p_planToRead : option (list Z);
  p_currentlyReading : option (list Z);
  p_readChapters : option (gmap Z ReadChapters);
  p_notifications : option (list UserNotification);
  p_reminders : option (list Reminder);
  p_hiddenGenres : option (list string);
  p_sensitiveContentUnlocked : option bool;
  p_storageQuota : option Z;
}.

(** [{ ...currentData, ...newData }] *)
Definition spread (currentData : ListData) (newData : PartialListData) : ListData :=
  {| planToWatch := default (planToWatch currentData) (p_planToWatch newData);
     currentlyWatching :=
       default (currentlyWatching currentData) (p_currentlyWatching newData);
     watchedEpisodes :=
       default (watchedEpisodes currentData) (p_watchedEpisodes newData);
     planToRead := default (planToRead currentData) (p_planToRead newData);
     currentlyReading :=
       default (currentlyReading currentData) (p_currentlyReading newData);
     readChapters := default (readChapters currentData) (p_readChapters newData);
     notifications :=
       default (notifications currentData) (p_notifications newData);
     reminders := default (reminders currentData) (p_reminders newData);
     hiddenGenres := default (hiddenGenres currentData) (p_hiddenGenres newData);
     sensitiveContentUnlocked :=
       default (sensitiveContentUnlocked currentData)
               (p_sensitiveContentUnlocked newData);
     storageQuota := default (storageQuota currentData) (p_storageQuota newData) |}.

(** [{ ...updatedData, notifications }] *)
Definition withNotifications (d : ListData) (ns : list UserNotification) : ListData :=
  spread d {| p_planToWatch := None; p_currentlyWatching := None;
              p_watchedEpisodes := None; p_planToRead := None;
              p_currentlyReading := None; p_readChapters := None;
              p_notifications := Some ns; p_reminders := None;
              p_hiddenGenres := None; p_sensitiveContentUnlocked := None;
              p_storageQuota := None |}.

Definition DEFAULT_STORAGE_QUOTA : Z := 1 * 1024 * 1024 * 1024.

(** [initialListData]; the built-in list [SENSITIVE_GENRES] of [@/lib/config]
    is an argument. *)
Definition initialListData (SENSITIVE_GENRES : list string) : ListData :=
  {| planToWatch := []; currentlyWatching := []; watchedEpisodes := ∅;
     planToRead := []; currentlyReading := []; readChapters := ∅;
     notifications := []; reminders := []; hiddenGenres := SENSITIVE_GENRES;
     sensitiveContentUnlocked := false;
     storageQuota := DEFAULT_STORAGE_QUOTA |}.

(** ** The world: React state, the IndexedDB store, and the effects log *)

Record Toast := {
  t_destructive : bool;
  t_title : string;
  t_description : string;
}.

Record World := {
  listData : ListData;                  (* useState: listData *)
  trackedMedia : list Anime;            (* useState: trackedMedia *)
  idb_listData : option ListData;       (* store: IDB_LIST_DATA_KEY *)
  idb_tracked : option (list Anime);    (* store: IDB_TRACKED_MEDIA_KEY *)
  toasts : list Toast;                  (* toast(...) calls, oldest first *)
  logs : list string;                   (* addLog(...) calls, oldest first *)
  nextUuid : nat;                       (* the uuidv4() supply *)
}.

Definition setListData (d : ListData) (w : World) : World :=
  {| listData := d; trackedMedia := trackedMedia w;
     idb_listData := idb_listData w; idb_tracked := idb_tracked w;
     toasts := toasts w; logs := logs w; nextUuid := nextUuid w |}.

Definition setTrackedMedia (t : list Anime) (w : World) : World :=
  {| listData := listData w; trackedMedia := t;
     idb_listData := idb_listData w; idb_tracked := idb_tracked w;
     toasts := toasts w; logs := logs w; nextUuid := nextUuid w |}.

(** [set(IDB_LIST_DATA_KEY, d)] *)
Definition set_IDB_LIST_DATA_KEY (d : ListData) (w : World) : World :=
  {| listData := listData w; trackedMedia := trackedMedia w;
     idb_listData := Some d; idb_tracked := idb_tracked w;
     toasts := toasts w; logs := logs w; nextUuid := nextUuid w |}.

(** [set(IDB_TRACKED_MEDIA_KEY, t)] *)
Definition set_IDB_TRACKED_MEDIA_KEY (t : list Anime) (w : World) : World :=
  {| listData := listData w; trackedMedia := trackedMedia w;
     idb_listData := idb_listData w; idb_tracked := Some t;
     toasts := toasts w; logs := logs w; nextUuid := nextUuid w |}.

Definition toast (t : Toast) (w : World) : World :=
  {| listData := listData w; trackedMedia := trackedMedia w;
     idb_listData := idb_listData w; idb_tracked := idb_tracked w;
     toasts := toasts w ++ [t]; logs := logs w; nextUuid := nextUuid w |}.

Definition addLog (msg : string) (w : World) : World :=
  {| listData := listData w; trackedMedia := trackedMedia w;
     idb_listData := idb_listData w; idb_tracked := idb_tracked w;
     toasts := toasts w; logs := logs w ++ [msg]; nextUuid := nextUuid w |}.

(** [uuidv4()]: the next identifier of the supply. *)
Definition uuidv4 (w : World) : Ident * World :=
  (Uuid (nextUuid w),
   {| listData := listData w; trackedMedia := trackedMedia w;
      idb_listData := idb_listData w; idb_tracked := idb_tracked w;
      toasts := toasts w; logs := logs w; nextUuid := S (nextUuid w) |}).

(** What an operation reads from the platform: [navigator.storage.estimate]
    ([None] when the API is absent; [Some None] when the estimate carries no
    [usage]) and the clock. *)
Record Env := {
  storageEstimate : option (option Z);
  now : Z;
}.

(** ** Storage quota guard and the mutation funnel *)

Definition storageLimitToast : Toast :=
  {| t_destructive := true; t_title := "Storage Limit Reached";
     t_description :=
       "New data cannot be saved. Please increase storage quota in settings." |}.

Definition storageNotification (env : Env) : UserNotification :=
  {| n_id := StorageWarningId (now env); n_type := storage;
     n_title := "Storage Limit Reached";
     n_message := "Increase your storage quota in settings to save new data.";
     n_timestamp := now env; n_seen := false |}.

(** [checkStorageAndNotify(updatedData)]: the answer ([true]: the caller may
    write) and the world after the guard's own effects. *)
Definition checkStorageAndNotify (env : Env) (updatedData : ListData) (w : World)
  : bool * World :=
  match storageEstimate env with
  | None => (true, w)
  | Some estimate =>
      let quota :=
        if bool_decide (storageQuota updatedData = 0) then DEFAULT_STORAGE_QUOTA
        else storageQuota updatedData in
      let usage := default 0 estimate in
      if bool_decide (usage > quota) then
        let w1 := toast storageLimitToast w in
        let notifications' :=
          notifications updatedData ++ [storageNotification env] in
        (false,
         set_IDB_LIST_DATA_KEY (withNotifications updatedData notifications') w1)
      else (true, w)
  end.

(** [updateAndPersistListData(getNewData)] *)
Definition updateAndPersistListData (env : Env)
    (getNewData : ListData → PartialListData) (w : World) : World :=
  let currentData := listData w in
  let newData := getNewData currentData in
  let updatedData := spread currentData newData in
  let '(canWrite, w1) := checkStorageAndNotify env updatedData w in
  let w2 :=
    if canWrite then set_IDB_LIST_DATA_KEY updatedData w1
    else addLog "Write operation blocked due to storage quota." w1 in
  setListData updatedData w2.

(** ** List-membership toggles and the tracked-media reconciliation *)

(** The four primary lists: the string literals
    ['planToWatch' | 'currentlyWatching' | 'planToRead' | 'currentlyReading']. *)
Inductive ListName :=
  | PlanToWatch
  | CurrentlyWatching
  | PlanToRead
  | CurrentlyReading.

(** [data[listName]] *)
Definition getList (listName : ListName) (d : ListData) : list Z :=
  match listName with
  | PlanToWatch => planToWatch d
  | CurrentlyWatching => currentlyWatching d
  | PlanToRead => planToRead d
  | CurrentlyReading => currentlyReading d
  end.

(** [{ [listName]: newList }] *)
Definition onlyList (listName : ListName) (newList : list Z) : PartialListData :=
  {| p_planToWatch :=
       match listName with PlanToWatch => Some newList | _ => None end;
     p_currentlyWatching :=
       match listName with CurrentlyWatching => Some newList | _ => None end;
     p_watchedEpisodes := None;
     p_planToRead :=
       match listName with PlanToRead => Some newList | _ => None end;
     p_currentlyReading :=
       match listName with CurrentlyReading => Some newList | _ => None end;
     p_readChapters := None; p_notifications := None; p_reminders := None;
     p_hiddenGenres := None; p_sensitiveContentUnlocked := None;
     p_storageQuota := None |}.

(** [list.includes(id) ? list.filter(x => x !== id) : [...list, id]] *)
Definition toggleIn (id : Z) (lst : list Z) : list Z :=
  if bool_decide (id ∈ lst) then filter (λ x, x ≠ id) lst else lst ++ [id].

(** [handleToggleListMembership(media, listName)], the synchronous part: the
    transformer handed to the funnel. *)
Definition handleToggleListMembership (env : Env) (media : Anime)
    (listName : ListName) (w : World) : World :=
  updateAndPersistListData env
    (λ currentData,
       let lst := getList listName currentData in
       let newIsInList := bool_decide (a_id media ∈ lst) in
       let newList :=
         if newIsInList then filter (λ id, id ≠ a_id media) lst
         else lst ++ [a_id media] in
       onlyList listName newList)
    w.

(** [['planToWatch', ...].some(name => freshListData[name]?.includes(id))] *)
Definition isInAnyList (id : Z) (freshListData : ListData) : bool :=
  existsb (λ name, bool_decide (id ∈ getList name freshListData))
          [PlanToWatch; CurrentlyWatching; PlanToRead; CurrentlyReading].

(** [currentTracked.some(item => item.id === id)] *)
Definition isTracked (id : Z) (currentTracked : list Anime) : bool :=
  existsb (λ item, bool_decide (a_id item = id)) currentTracked.

(** The callback [handleToggleListMembership] hands to [setTimeout(.., 100)]:
    it reads the store, not the React state. *)
Definition handleToggleListMembership_timeout (SENSITIVE_GENRES : list string)
    (media : Anime) (w : World) : World :=
  let currentTracked := default [] (idb_tracked w) in
  let freshListData :=
    default (initialListData SENSITIVE_GENRES) (idb_listData w) in
  if isInAnyList (a_id media) freshListData then
    if negb (isTracked (a_id media) currentTracked) then
      let newTracked := currentTracked ++ [withoutSynopsis media] in
      setTrackedMedia newTracked (set_IDB_TRACKED_MEDIA_KEY newTracked w)
    else w
  else
    let newTracked := filter (λ item, a_id item ≠ a_id media) currentTracked in
    setTrackedMedia newTracked (set_IDB_TRACKED_MEDIA_KEY newTracked w).

Definition togglePlanToWatch (env : Env) (anime : Anime) : World → World :=
  handleToggleListMembership env anime PlanToWatch.

Definition togglePlanToRead (env : Env) (manga : Anime) : World → World :=
  handleToggleListMembership env manga PlanToRead.

(** [toggleCurrentlyWatching(anime)], the synchronous part. *)
Definition toggleCurrentlyWatching (env : Env) (anime : Anime) (w : World) : World :=
  updateAndPersistListData env
    (λ d,
       {| p_planToWatch := Some (filter (λ id, id ≠ a_id anime) (planToWatch d));
          p_currentlyWatching :=
            Some (if bool_decide (a_id anime ∈ currentlyWatching d)
                  then filter (λ id, id ≠ a_id anime) (currentlyWatching d)
                  else currentlyWatching d ++ [a_id anime]);
          p_watchedEpisodes := None; p_planToRead := None;
          p_currentlyReading := None; p_readChapters := None;
          p_notifications := None; p_reminders := None; p_hiddenGenres := None;
          p_sensitiveContentUnlocked := None; p_storageQuota := None |})
    w.

(** The timer callback shared by [toggleCurrentlyWatching] and
    [toggleCurrentlyReading]: it only ever adds the record. *)
Definition toggleCurrently_timeout (media : Anime) (w : World) : World :=
  let currentTracked := default [] (idb_tracked w) in
  if negb (isTracked (a_id media) currentTracked) then
    let newTracked := currentTracked ++ [withoutSynopsis media] in
    setTrackedMedia newTracked (set_IDB_TRACKED_MEDIA_KEY newTracked w)
  else w.

(** [toggleCurrentlyReading(manga)], the synchronous part. *)
Definition toggleCurrentlyReading (env : Env) (manga : Anime) (w : World) : World :=
  updateAndPersistListData env
    (λ d,
       {| p_planToWatch := None; p_currentlyWatching := None;
          p_watchedEpisodes := None;
          p_planToRead := Some (filter (λ id, id ≠ a_id manga) (planToRead d));
          p_currentlyReading :=
            Some (if bool_decide (a_id manga ∈ currentlyReading d)
                  then filter (λ id, id ≠ a_id manga) (currentlyReading d)
                  else currentlyReading d ++ [a_id manga]);
          p_readChapters := None; p_notifications := None; p_reminders := None;
          p_hiddenGenres := None; p_sensitiveContentUnlocked := None;
          p_storageQuota := None |})
    w.

(** The toggle operations with the reconciliation each of them schedules. *)
Inductive Toggle :=
  | ToggleListMembership (media : Anime) (listName : ListName)
  | ToggleCurrentlyWatching (anime : Anime)
  | ToggleCurrentlyReading (manga : Anime).

(** A toggle followed, 100ms later, by its timer callback. *)
Definition toggleAndReconcile (SENSITIVE_GENRES : list string) (env : Env)
    (t : Toggle) (w : World) : World :=
  match t with
  | ToggleListMembership media listName =>
      handleToggleListMembership_timeout SENSITIVE_GENRES media
        (handleToggleListMembership env media listName w)
  | ToggleCurrentlyWatching anime =>
      toggleCurrently_timeout anime (toggleCurrentlyWatching env anime w)
  | ToggleCurrentlyReading manga =>
      toggleCurrently_timeout manga (toggleCurrentlyReading env manga w)
  end.

(** The ids of the tracked-media cache, and the union of the four lists. *)
Definition trackedIds (tracked : list Anime) : list Z := a_id <$> tracked.

Definition listUnion (d : ListData) : list Z :=
  planToWatch d ++ currentlyWatching d ++ planToRead d ++ currentlyReading d.

(** ** Dates (JavaScript [Date] and date-fns, in a fixed-offset time zone) *)

Definition MS_PER_MINUTE : Z := 1000 * 60.
Definition MS_PER_HOUR : Z := 1000 * 60 * 60.
Definition MS_PER_DAY : Z := 1000 * 60 * 60 * 24.

(** date-fns [isPast(date)]: [+date < Date.now()]. *)
Definition isPast (now date : Z) : bool := bool_decide (date < now).

(** [date.getDay()]: 0 is Sunday; 1 January 1970 was a Thursday. *)
Definition getDay (date : Z) : Z := (date / MS_PER_DAY + 4) mod 7.

Definition getHours (date : Z) : Z := (date mod MS_PER_DAY) / MS_PER_HOUR.

Definition getMinutes (date : Z) : Z := (date mod MS_PER_HOUR) / MS_PER_MINUTE.

(** date-fns [addDays(date, amount)] *)
Definition addDays (date amount : Z) : Z := date + amount * MS_PER_DAY.

(** date-fns [nextDay(date, day)]:
    [let delta = day - date.getDay(); if (delta <= 0) delta += 7;
     return addDays(date, delta)]. *)
Definition nextDay (date day : Z) : Z :=
  let delta := day - getDay date in
  let delta := if bool_decide (delta ≤ 0) then delta + 7 else delta in
  addDays date delta.

(** [date.setHours(hours, minutes, 0, 0)] *)
Definition setHours (date hours minutes : Z) : Z :=
  date / MS_PER_DAY * MS_PER_DAY + hours * MS_PER_HOUR + minutes * MS_PER_MINUTE.

(** ** Reminder due-ness (src/lib/anilist/requests.ts) *)

(** [reminder.repeatOnDays && reminder.repeatOnDays.length > 0] *)
Definition hasRepeatOnDays (r : Reminder) : bool :=
  match repeatOnDays r with
  | Some days => bool_decide (0 < length days)%nat
  | None => false
  end.

(** The occurrence the weekly loop computes for one configured weekday. *)
Definition nextOccurrence (now startDate day : Z) : Z :=
  setHours (nextDay now day) (getHours startDate) (getMinutes startDate).

(** The [for (const day of sortedRepeatDays)] loop with its early
    [return false], and the [return true] after it. *)
Fixpoint weeklyLoop (now startDate : Z) (sortedRepeatDays : list Z) : bool :=
  match sortedRepeatDays with
  | [] => true
  | day :: rest =>
      if negb (isPast now (nextOccurrence now startDate day)) then false
      else weeklyLoop now startDate rest
  end.

(** [Math.floor((now.getTime() - startDate.getTime()) / (1000*60*60*24))] *)
Definition daysSinceStart (now startDate : Z) : Z := (now - startDate) / MS_PER_DAY.

(** [isReminderDue(reminder)] evaluated at the instant [now].  The remainder
    [%] of JavaScript takes the sign of the dividend ([Z.rem]). *)
Definition isReminderDue (now : Z) (r : Reminder) : bool :=
  let startDate := startDateTime r in
  if bool_decide (repeatIntervalDays r = 0) && negb (hasRepeatOnDays r) then
    isPast now startDate
  else if hasRepeatOnDays r then
    let sortedRepeatDays := merge_sort Z.le (default [] (repeatOnDays r)) in
    weeklyLoop now startDate sortedRepeatDays
  else if isPast now startDate then
    bool_decide (Z.rem (daysSinceStart now startDate) (repeatIntervalDays r) = 0)
    || bool_decide (daysSinceStart now startDate > 0)
  else false.

(** ** Reminder scheduler (use-auth.tsx) *)

(** [a || b] on nullable numbers. *)
Definition orElse (a b : option Z) : option Z :=
  match a with
  | Some x => if bool_decide (x = 0) then b else a
  | None => b
  end.

(** [isMediaCompleted(reminder)] *)
Definition isMediaCompleted (tracked : list Anime) (d : ListData) (r : Reminder)
  : bool :=
  if negb (autoStopOnCompletion r) then false
  else
    match find (λ m, bool_decide (a_id m = r_mediaId r)) tracked with
    | None => false
    | Some media =>
        let totalUnits :=
          if bool_decide (a_type media = "MANGA")
          then orElse (a_chapters media) (a_volumes media)
          else a_episodes media in
        match totalUnits with
        | None => false
        | Some totalUnits =>
            if bool_decide (totalUnits = 0) then false
            else if bool_decide (a_type media = "MANGA") then
              bool_decide
                (Z.of_nat (default 0%nat
                   (length ∘ read <$> readChapters d !! a_id media))
                 >= totalUnits)
            else
              bool_decide
                (Z.of_nat (default 0%nat
                   (length <$> watchedEpisodes d !! a_id media))
                 >= totalUnits)
        end
    end.

(** [n.type === 'reminder'] with [(n as ReminderNotification).reminderId] *)
Definition reminderIdOf (n : UserNotification) : option Ident :=
  match n_type n with
  | reminder reminderId _ => Some reminderId
  | _ => None
  end.

(** [notifications.filter(n => n.type === 'reminder').map(n => n.reminderId)],
    the elements of the [Set] the scheduler tests with [has]. *)
Definition existingReminderNotifications (ns : list UserNotification)
  : list Ident :=
  omap reminderIdOf ns.

Definition reminderNotification (env : Env) (id : Ident) (r : Reminder)
  : UserNotification :=
  {| n_id := id; n_type := reminder (r_id r) (r_mediaId r);
     n_title := r_title r; n_message := r_notes r;
     n_timestamp := now env; n_seen := false |}.

(** The test the scheduler applies to one reminder before it pushes. *)
Definition schedulerSelects (env : Env) (existing : list Ident)
    (tracked : list Anime) (d : ListData) (r : Reminder) : bool :=
  isPast (now env) (startDateTime r)
  && negb (bool_decide (r_id r ∈ existing))
  && negb (isMediaCompleted tracked d r).

(** The body of [reminders.forEach(reminder => ...)]: the accumulator is
    [newNotifications] and the world that holds the identifier supply. *)
Definition forEachReminder (env : Env) (existing : list Ident)
    (tracked : list Anime) (d : ListData)
    (acc : list UserNotification * World) (r : Reminder)
  : list UserNotification * World :=
  let '(newNotifications, w) := acc in
  if isPast (now env) (startDateTime r)
     && negb (bool_decide (r_id r ∈ existing)) then
    if isMediaCompleted tracked d r then acc
    else
      let '(id, w') := uuidv4 w in
      (newNotifications ++ [reminderNotification env id r], w')
  else acc.

Definition appendNotifications (newNotifications : list UserNotification)
    (currentData : ListData) : PartialListData :=
  {| p_planToWatch := None; p_currentlyWatching := None;
     p_watchedEpisodes := None; p_planToRead := None;
     p_currentlyReading := None; p_readChapters := None;
     p_notifications := Some (notifications currentData ++ newNotifications);
     p_reminders := None; p_hiddenGenres := None;
     p_sensitiveContentUnlocked := None; p_storageQuota := None |}.

(** [checkRemindersAndCreateNotifications()]: one scheduler pass. *)
Definition checkRemindersAndCreateNotifications (env : Env) (w : World) : World :=
  let existing := existingReminderNotifications (notifications (listData w)) in
  let '(newNotifications, w1) :=
    foldl (forEachReminder env existing (trackedMedia w) (listData w))
          ([], w) (reminders (listData w)) in
  if bool_decide (0 < length newNotifications)%nat then
    updateAndPersistListData env (appendNotifications newNotifications) w1
  else w1.

(** Scheduler passes at the successive instants of [envs]. *)
Definition schedulerPasses (envs : list Env) (w : World) : World :=
  foldl (λ w env, checkRemindersAndCreateNotifications env w) w envs.

(** The reminder-kind notifications that reference the reminder [rid]. *)
Definition reminderNotificationsFor (rid : Ident) (d : ListData)
  : list UserNotification :=
  filter (λ n, reminderIdOf n = Some rid) (notifications d).

(** ** Hidden genres for catalogue queries (requests.ts) *)

(** An entry of [genres_list] ([@/i18n]). *)
Record GenreEntry := {
  g_name : string;
  g_type : string;
}.

(** [Array.from(new Set(xs))]: the first occurrence of each element, in
    insertion order. *)
Fixpoint arrayFromSet (xs : list string) : list string :=
  match xs with
  | [] => []
  | x :: rest => x :: filter (λ y, y ≠ x) (arrayFromSet rest)
  end.

(** [genres_list.find(g => g.name === name)?.type] *)
Definition typeOfGenre (genres_list : list GenreEntry) (name : string)
  : option string :=
  g_type <$> find (λ g, bool_decide (g_name g = name)) genres_list.

(** [finalHidden] as [getHiddenGenres] computes it from the list data it
    works with ([None]: neither the argument nor the store has any). *)
Definition finalHidden (SENSITIVE_GENRES : list string) (data : option ListData)
  : list string :=
  match data with
  | None => SENSITIVE_GENRES
  | Some data =>
      let userHidden := hiddenGenres data in
      if sensitiveContentUnlocked data then userHidden
      else arrayFromSet (SENSITIVE_GENRES ++ userHidden)
  end.

(** [getHiddenGenres(listData)]: the pair [{ genres, tags }].  [stored] is
    what [get('animesync_local_list_data')] returns when [listData] is
    absent. *)
Definition getHiddenGenres (SENSITIVE_GENRES : list string)
    (genres_list : list GenreEntry) (stored : option ListData)
    (listData : option ListData) : list string * list string :=
  let data := match listData with Some d => Some d | None => stored end in
  let finalHidden := finalHidden SENSITIVE_GENRES data in
  let allGenreNames := g_name <$> genres_list in
  let validHidden := filter (λ g, g ∈ allGenreNames) finalHidden in
  let hiddenGenres :=
    filter (λ name, typeOfGenre genres_list name = Some "genre") validHidden in
  let hiddenTags :=
    filter (λ name, typeOfGenre genres_list name = Some "tag") validHidden in
  (hiddenGenres, hiddenTags).

(** The names a catalogue query excludes: [genre_not_in] and [tag_not_in]. *)
Definition effectiveHidden (SENSITIVE_GENRES : list string)
    (genres_list : list GenreEntry) (d : ListData) : list string :=
  let '(genres, tags) :=
    getHiddenGenres SENSITIVE_GENRES genres_list None (Some d) in
  genres ++ tags.

(** ** Shared-data sync client (use-auth.tsx) *)

(** Parsed JSON, as far as the client inspects it. *)
#[local] Unset Elimination Schemes.
Inductive Json :=
  | JNull
  | JBool (b : bool)
  | JNumber (z : Z)
  | JString (s : string)
  | JArray (items : list Json)
  | JObject (fields : list (string * Json)).
#[local] Set Elimination Schemes.

(** JavaScript truthiness of a parsed value. *)
Definition truthy (v : Json) : bool :=
  match v with
  | JNull => false
  | JBool b => b
  | JNumber z => negb (bool_decide (z = 0))
  | JString s => negb (bool_decide (s = ""))
  | JArray _ | JObject _ => true
  end.

(** [data.key] on a value other than [null]: [None] is [undefined].  A
    repeated key of an object text keeps its last value ([JSON.parse]). *)
Definition getProperty (key : string) (data : Json) : option Json :=
  match data with
  | JObject fields =>
      snd <$> find (λ kv, bool_decide (kv.1 = key)) (reverse fields)
  | _ => None
  end.

(** [!v] for a property that may be [undefined]. *)
Definition falsy (v : option Json) : bool :=
  match v with
  | Some v => negb (truthy v)
  | None => true
  end.

Record SharedDataConfig := {
  url : option string;
  lastSync : option Z;
  lastSize : option Z;
  lastEtag : option string;
}.

(** What [fetch] resolves to: the fields of the response the client reads;
    [body] is the outcome of [response.json()] (the message of its rejection,
    or the parsed value). *)
Record Response := {
  status : Z;
  statusText : string;
  etag : option string;
  contentLength : option Z;
  body : string + Json;
}.

(** [response.ok] *)
Definition ok (response : Response) : bool :=
  bool_decide (200 ≤ status response) && bool_decide (status response ≤ 299).

Inductive FetchOutcome :=
  | FetchRejected (message : string)
  | FetchResolved (response : Response).

(** The sync client's view of the world.  It stores the fields of the
    snapshot as it received them, so its store slots hold parsed JSON. *)
Record SyncWorld := {
  sharedDataConfig : SharedDataConfig;      (* useState: sharedDataConfig *)
  isSyncing : bool;                         (* useState: isSyncing *)
  idb_profile : option Json;                (* store: IDB_PROFILE_KEY *)
  idb_lists : option Json;                  (* store: IDB_LIST_DATA_KEY *)
  idb_layout : option Json;                 (* store: IDB_LAYOUT_CONFIG_KEY *)
  idb_trackedJson : option Json;            (* store: IDB_TRACKED_MEDIA_KEY *)
  idb_shared : option SharedDataConfig;     (* store: IDB_SHARED_DATA_KEY *)
  syncToasts : list Toast;                  (* toast(...) calls *)
  fetches : list (string * list (string * string)); (* fetch(url, {headers}) *)
  reloads : nat;                (* scheduled window.location.reload() calls *)
}.

Definition syncToast (t : Toast) (w : SyncWorld) : SyncWorld :=
  {| sharedDataConfig := sharedDataConfig w; isSyncing := isSyncing w;
     idb_profile := idb_profile w; idb_lists := idb_lists w;
     idb_layout := idb_layout w; idb_trackedJson := idb_trackedJson w;
     idb_shared := idb_shared w; syncToasts := syncToasts w ++ [t];
     fetches := fetches w; reloads := reloads w |}.

Definition setIsSyncing (b : bool) (w : SyncWorld) : SyncWorld :=
  {| sharedDataConfig := sharedDataConfig w; isSyncing := b;
     idb_profile := idb_profile w; idb_lists := idb_lists w;
     idb_layout := idb_layout w; idb_trackedJson := idb_trackedJson w;
     idb_shared := idb_shared w; syncToasts := syncToasts w;
     fetches := fetches w; reloads := reloads w |}.

(** [setSharedDataConfig(c); set(IDB_SHARED_DATA_KEY, c)] *)
Definition storeSharedDataConfig (c : SharedDataConfig) (w : SyncWorld) : SyncWorld :=
  {| sharedDataConfig := c; isSyncing := isSyncing w;
     idb_profile := idb_profile w; idb_lists := idb_lists w;
     idb_layout := idb_layout w; idb_trackedJson := idb_trackedJson w;
     idb_shared := Some c; syncToasts := syncToasts w;
     fetches := fetches w; reloads := reloads w |}.

Definition recordFetch (target : string) (headers : list (string * string))
    (w : SyncWorld) : SyncWorld :=
  {| sharedDataConfig := sharedDataConfig w; isSyncing := isSyncing w;
     idb_profile := idb_profile w; idb_lists := idb_lists w;
     idb_layout := idb_layout w; idb_trackedJson := idb_trackedJson w;
     idb_shared := idb_shared w; syncToasts := syncToasts w;
     fetches := fetches w ++ [(target, headers)]; reloads := reloads w |}.

(** The four [set] calls of a successful sync; [layout] and [tracked] are
    written only when truthy. *)
Definition storeSnapshot (profile lists layout tracked : option Json)
    (w : SyncWorld) : SyncWorld :=
  {| sharedDataConfig := sharedDataConfig w; isSyncing := isSyncing w;
     idb_profile := profile; idb_lists := lists;
     idb_layout := if falsy layout then idb_layout w else layout;
     idb_trackedJson := if falsy tracked then idb_trackedJson w else tracked;
     idb_shared := idb_shared w; syncToasts := syncToasts w;
     fetches := fetches w; reloads := reloads w |}.

(** [setTimeout(() => window.location.reload(), 1500)] *)
Definition scheduleReload (w : SyncWorld) : SyncWorld :=
  {| sharedDataConfig := sharedDataConfig w; isSyncing := isSyncing w;
     idb_profile := idb_profile w; idb_lists := idb_lists w;
     idb_layout := idb_layout w; idb_trackedJson := idb_trackedJson w;
     idb_shared := idb_shared w; syncToasts := syncToasts w;
     fetches := fetches w; reloads := S (reloads w) |}.

Definition disconnectedConfig : SharedDataConfig :=
  {| url := None; lastSync := None; lastSize := None; lastEtag := None |}.

(** [disconnectFromSharedData(showToast)] *)
Definition disconnectFromSharedData (showToast : bool) (w : SyncWorld) : SyncWorld :=
  let newConfig := disconnectedConfig in
  let w := storeSharedDataConfig newConfig w in
  if showToast then
    syncToast {| t_destructive := false; t_title := "Disconnected";
                 t_description := "" |} w
  else w.

(** The headers of the request:
    [isManualTrigger ? {} : (lastEtag ? { 'If-None-Match': lastEtag } : {})]. *)
Definition requestHeaders (isManualTrigger : bool) (currentConfig : SharedDataConfig)
  : list (string * string) :=
  if isManualTrigger then []
  else
    match lastEtag currentConfig with
    | Some e => if bool_decide (e = "") then [] else [("If-None-Match", e)]
    | None => []
    end.

(** The body of the [try] block after [fetch] has settled: the message of the
    error thrown, or the world the block leaves. *)
Definition trySync (now : Z) (currentConfig : SharedDataConfig)
    (isManualTrigger : bool) (outcome : FetchOutcome) (w : SyncWorld)
  : string + SyncWorld :=
  match outcome with
  | FetchRejected message => inl message
  | FetchResolved response =>
      if bool_decide (status response = 304) then
        inr (if isManualTrigger then
               syncToast {| t_destructive := false;
                            t_title := "Already Up-to-Date";
                            t_description := "" |} w
             else w)
      else if ok response then
        match body response with
        | inl message => inl message
        | inr data =>
            match data with
            | JNull => inl "Cannot read properties of null (reading 'profile')"
            | _ =>
                let profile := getProperty "profile" data in
                let lists := getProperty "lists" data in
                if falsy profile || falsy lists then
                  inl "Invalid data structure."
                else
                  let w :=
                    storeSnapshot profile lists (getProperty "layout" data)
                                  (getProperty "tracked" data) w in
                  let newConfig :=
                    {| url := url currentConfig; lastSync := Some now;
                       lastEtag := etag response;
                       lastSize := Some (default 0 (contentLength response)) |} in
                  let w := storeSharedDataConfig newConfig w in
                  let w :=
                    syncToast {| t_destructive := false;
                                 t_title := "Sync Successful";
                                 t_description := "Reloading app." |} w in
                  inr (scheduleReload w)
            end
        end
      else inl ("Fetch failed: " +:+ statusText response)
  end.

(** [syncSharedData(isManualTrigger)].  [proxyUrl] builds the relay address
    [`/api/proxy?url=${encodeURIComponent(convertToRawGistUrl(url))}`];
    [outcome] is how the one [fetch] of the call settles. *)
Definition syncSharedData (proxyUrl : string → string) (now : Z)
    (outcome : FetchOutcome) (isManualTrigger : bool) (w : SyncWorld) : SyncWorld :=
  match idb_shared w with
  | None => w
  | Some currentConfig =>
      match url currentConfig with
      | None => w
      | Some u =>
          if bool_decide (u = "") then w
          else if isSyncing w then w
          else
            let w := setIsSyncing true w in
            let headers := requestHeaders isManualTrigger currentConfig in
            let w := recordFetch (proxyUrl u) headers w in
            let w :=
              match trySync now currentConfig isManualTrigger outcome w with
              | inr w => w
              | inl message =>
                  let w :=
                    syncToast {| t_destructive := true;
                                 t_title := "Sync Failed";
                                 t_description := message |} w in
                  disconnectFromSharedData false w
              end in
            setIsSyncing false w
      end
  end.

(** * Theorems *)

(** ** The mutation funnel *)

(** The quota the guard compares against ([storageQuota || DEFAULT]), and
    whether it vetoes a write of [updatedData]. *)
Definition effectiveQuota (updatedData : ListData) : Z :=
  if bool_decide (storageQuota updatedData = 0) then DEFAULT_STORAGE_QUOTA
  else storageQuota updatedData.

Definition quotaExceeded (env : Env) (updatedData : ListData) : bool :=
  match storageEstimate env with
  | None => false
  | Some estimate => bool_decide (default 0 estimate > effectiveQuota updatedData)
  end.

Lemma checkStorageAndNotify_answer env updatedData w :
  (checkStorageAndNotify env updatedData w).1 = negb (quotaExceeded env updatedData).
Proof.
  unfold checkStorageAndNotify, quotaExceeded, effectiveQuota.
  destruct (storageEstimate env); [|done]. by case_bool_decide.
Qed.

(** The React state always receives the merged data, vetoed or not. *)
Lemma updateAndPersistListData_listData env getNewData w :
  listData (updateAndPersistListData env getNewData w)
  = spread (listData w) (getNewData (listData w)).
Proof.
  unfold updateAndPersistListData.
  by destruct (checkStorageAndNotify _ _ _) as [[] ?].
Qed.

Lemma updateAndPersistListData_idb_listData env getNewData w :
  let updatedData := spread (listData w) (getNewData (listData w)) in
  idb_listData (updateAndPersistListData env getNewData w)
  = Some (if quotaExceeded env updatedData
          then withNotifications updatedData
                 (notifications updatedData ++ [storageNotification env])
          else updatedData).
Proof.
  unfold updateAndPersistListData, checkStorageAndNotify, quotaExceeded,
    effectiveQuota.
  destruct (storageEstimate env); [|done]. by case_bool_decide.
Qed.

Lemma updateAndPersistListData_tracked env getNewData w :
  idb_tracked (updateAndPersistListData env getNewData w) = idb_tracked w
  ∧ trackedMedia (updateAndPersistListData env getNewData w) = trackedMedia w.
Proof.
  unfold updateAndPersistListData, checkStorageAndNotify.
  destruct (storageEstimate env); [|done]. by case_bool_decide.
Qed.

(** Whatever the guard decides, the stored copy carries the lists of the
    React state. *)
Lemma updateAndPersistListData_stored_lists env getNewData w listName :
  (getList listName <$> idb_listData (updateAndPersistListData env getNewData w))
  = Some (getList listName (listData (updateAndPersistListData env getNewData w))).
Proof.
  rewrite updateAndPersistListData_idb_listData,
    updateAndPersistListData_listData. simpl.
  by destruct (quotaExceeded _ _), listName.
Qed.

(** A vetoed write still stores the merged data: only its notifications
    differ, by the one warning the guard appends. *)
Lemma quota_veto_stores_updatedData env getNewData w :
  quotaExceeded env (spread (listData w) (getNewData (listData w))) = true →
  let updatedData := spread (listData w) (getNewData (listData w)) in
  let w' := updateAndPersistListData env getNewData w in
  idb_listData w'
  = Some (withNotifications updatedData
            (notifications updatedData ++ [storageNotification env]))
  ∧ (∀ listName,
       (getList listName <$> idb_listData w') = Some (getList listName updatedData))
  ∧ logs w' = logs w ++ ["Write operation blocked due to storage quota."]
  ∧ toasts w' = toasts w ++ [storageLimitToast].
Proof.
  intros Hq updatedData w'. subst w'.
  split_and!.
  - rewrite updateAndPersistListData_idb_listData. cbv zeta. by rewrite Hq.
  - intros listName. rewrite updateAndPersistListData_stored_lists.
    by rewrite updateAndPersistListData_listData.
  - unfold updateAndPersistListData, checkStorageAndNotify.
    unfold quotaExceeded, effectiveQuota in Hq.
    destruct (storageEstimate env); [|done].
    by case_bool_decide.
  - unfold updateAndPersistListData, checkStorageAndNotify.
    unfold quotaExceeded, effectiveQuota in Hq.
    destruct (storageEstimate env); [|done].
    by case_bool_decide.
Qed.

(** ** Toggles *)

Lemma getList_spread_onlyList listName newList d :
  getList listName (spread d (onlyList listName newList)) = newList.
Proof. by destruct listName. Qed.

Lemma getList_spread_onlyList_ne listName other newList d :
  listName ≠ other →
  getList other (spread d (onlyList listName newList)) = getList other d.
Proof. by destruct listName, other. Qed.

Lemma handleToggleListMembership_list env media listName w :
  getList listName (listData (handleToggleListMembership env media listName w))
  = toggleIn (a_id media) (getList listName (listData w)).
Proof.
  unfold handleToggleListMembership.
  rewrite updateAndPersistListData_listData.
  by rewrite getList_spread_onlyList.
Qed.

Lemma filter_ne_absent (id : Z) (l : list Z) :
  id ∉ l → filter (λ x, x ≠ id) l = l.
Proof.
  induction l as [|y l IH]; [done|]. intros Hy.
  apply not_elem_of_cons in Hy as [Hne Hl].
  rewrite filter_cons_True by congruence. by rewrite IH.
Qed.

Lemma not_elem_of_filter_ne (id : Z) (l : list Z) :
  id ∉ filter (λ x, x ≠ id) l.
Proof. rewrite list_elem_of_filter. tauto. Qed.

Lemma toggleIn_present id l :
  id ∈ l → toggleIn id l = filter (λ x, x ≠ id) l.
Proof. intros. unfold toggleIn. by rewrite bool_decide_eq_true_2. Qed.

Lemma toggleIn_absent id l : id ∉ l → toggleIn id l = l ++ [id].
Proof. intros. unfold toggleIn. by rewrite bool_decide_eq_false_2. Qed.

Lemma toggleIn_twice_present id l :
  id ∈ l → toggleIn id (toggleIn id l) = filter (λ x, x ≠ id) l ++ [id].
Proof.
  intros Hin. rewrite (toggleIn_present _ _ Hin).
  apply toggleIn_absent, not_elem_of_filter_ne.
Qed.

Lemma toggleIn_twice_absent id l : id ∉ l → toggleIn id (toggleIn id l) = l.
Proof.
  intros Hnin. rewrite (toggleIn_absent _ _ Hnin).
  rewrite toggleIn_present by (apply elem_of_app; right; by apply list_elem_of_singleton).
  rewrite filter_app, filter_ne_absent by done.
  rewrite filter_cons_False by tauto. by rewrite filter_nil, app_nil_r.
Qed.

Lemma toggleIn_twice_elem_of id l x :
  x ∈ toggleIn id (toggleIn id l) ↔ x ∈ l.
Proof.
  destruct (decide (id ∈ l)) as [Hin|Hnin].
  - rewrite toggleIn_twice_present by done.
    rewrite elem_of_app, list_elem_of_filter, list_elem_of_singleton.
    destruct (decide (x = id)) as [->|Hne].
    + split; [done | by right].
    + split; [by intros [[_ ?]|?] | by left].
  - by rewrite toggleIn_twice_absent.
Qed.

(** Occurrences of [x] in a list. *)
Definition occurrences (x : Z) (l : list Z) : nat := length (filter (λ y, y = x) l).

Lemma occurrences_filter_ne_same id l :
  occurrences id (filter (λ x, x ≠ id) l) = 0%nat.
Proof.
  unfold occurrences. induction l as [|y l IH]; [done|].
  destruct (decide (y = id)) as [->|Hne].
  - by rewrite filter_cons_False by tauto.
  - rewrite filter_cons_True by done. by rewrite filter_cons_False by done.
Qed.

Lemma occurrences_filter_ne_other id x l :
  x ≠ id → occurrences x (filter (λ y, y ≠ id) l) = occurrences x l.
Proof.
  intros Hne. unfold occurrences. induction l as [|y l IH]; [done|].
  destruct (decide (y = id)) as [->|Hy].
  - rewrite filter_cons_False by tauto. by rewrite filter_cons_False by done.
  - rewrite (filter_cons_True (λ y, y ≠ id)) by done.
    destruct (decide (y = x)) as [->|Hx].
    + rewrite !filter_cons_True by done. simpl. by rewrite IH.
    + by rewrite !filter_cons_False by done.
Qed.

Lemma occurrences_elem_of x l : x ∈ l → (1 ≤ occurrences x l)%nat.
Proof.
  unfold occurrences. induction l as [|y l IH]; intros Hin.
  - by apply elem_of_nil in Hin.
  - destruct (decide (y = x)) as [->|Hne].
    + rewrite filter_cons_True by done. simpl. lia.
    + rewrite filter_cons_False by done. apply IH.
      apply elem_of_cons in Hin as [->|]; done.
Qed.

Lemma toggleIn_twice_occurrences id l x :
  (occurrences x (toggleIn id (toggleIn id l)) ≤ occurrences x l)%nat.
Proof.
  destruct (decide (id ∈ l)) as [Hin|Hnin].
  - rewrite toggleIn_twice_present by done.
    unfold occurrences at 1. rewrite filter_app, length_app.
    fold (occurrences x (filter (λ y, y ≠ id) l)).
    destruct (decide (x = id)) as [->|Hne].
    + rewrite occurrences_filter_ne_same.
      rewrite filter_cons_True by done. simpl.
      by apply occurrences_elem_of.
    + rewrite occurrences_filter_ne_other by done.
      rewrite filter_cons_False by congruence. simpl. lia.
  - by rewrite toggleIn_twice_absent.
Qed.

Lemma toggleIn_twice_NoDup id l :
  NoDup l → NoDup (toggleIn id (toggleIn id l)).
Proof.
  intros Hnd. destruct (decide (id ∈ l)) as [Hin|Hnin].
  - rewrite toggleIn_twice_present by done.
    apply NoDup_app. split_and!.
    + by apply NoDup_filter.
    + intros x Hx Hx'. apply list_elem_of_singleton in Hx' as ->.
      by apply not_elem_of_filter_ne in Hx.
    + apply NoDup_singleton.
  - by rewrite toggleIn_twice_absent.
Qed.

Lemma toggleCurrentlyWatching_list env anime w :
  currentlyWatching (listData (toggleCurrentlyWatching env anime w))
  = toggleIn (a_id anime) (currentlyWatching (listData w)).
Proof.
  unfold toggleCurrentlyWatching. by rewrite updateAndPersistListData_listData.
Qed.

Lemma toggleCurrentlyReading_list env manga w :
  currentlyReading (listData (toggleCurrentlyReading env manga w))
  = toggleIn (a_id manga) (currentlyReading (listData w)).
Proof.
  unfold toggleCurrentlyReading. by rewrite updateAndPersistListData_listData.
Qed.

(** A list has the members of another and no more occurrences of any of
    them: nothing was added, nothing was lost, no duplicate was introduced. *)
Definition sameMembers (before after : list Z) : Prop :=
  (∀ x, x ∈ after ↔ x ∈ before)
  ∧ (∀ x, (occurrences x after ≤ occurrences x before)%nat)
  ∧ (NoDup before → NoDup after).

Lemma toggleIn_twice_sameMembers id l :
  sameMembers l (toggleIn id (toggleIn id l)).
Proof.
  split_and!.
  - intros x. apply toggleIn_twice_elem_of.
  - intros x. apply toggleIn_twice_occurrences.
  - apply toggleIn_twice_NoDup.
Qed.

(** C7.  Toggling the membership of a media id in one of the four primary
    lists twice in succession gives the list its original members back:
    membership is the same for every id and no id occurs more often than
    before (so a duplicate-free list stays duplicate-free).  This holds for
    [handleToggleListMembership] on each of the four lists, where moreover an
    id that was absent leaves the list exactly as it was and the three other
    lists are untouched, and for [toggleCurrentlyWatching] and
    [toggleCurrentlyReading] on the list each of them toggles. *)
Theorem toggle_twice_restores_members
    (env1 env2 : Env) (media : Anime) (listName : ListName) (w : World) :
  let before := getList listName (listData w) in
  let w2 :=
    handleToggleListMembership env2 media listName
      (handleToggleListMembership env1 media listName w) in
  let after := getList listName (listData w2) in
  sameMembers before after
  ∧ (a_id media ∉ before → after = before)
  ∧ (∀ other, other ≠ listName →
       getList other (listData w2) = getList other (listData w))
  ∧ sameMembers (currentlyWatching (listData w))
      (currentlyWatching
         (listData (toggleCurrentlyWatching env2 media
                      (toggleCurrentlyWatching env1 media w))))
  ∧ sameMembers (currentlyReading (listData w))
      (currentlyReading
         (listData (toggleCurrentlyReading env2 media
                      (toggleCurrentlyReading env1 media w)))).
Proof.
  intros before w2 after.
  assert (Hafter : after = toggleIn (a_id media) (toggleIn (a_id media) before)).
  { subst after w2 before. by rewrite !handleToggleListMembership_list. }
  rewrite Hafter. split_and!.
  - apply toggleIn_twice_sameMembers.
  - apply toggleIn_twice_absent.
  - intros other Hne. subst w2. unfold handleToggleListMembership.
    rewrite !updateAndPersistListData_listData.
    by rewrite !getList_spread_onlyList_ne.
  - rewrite !toggleCurrentlyWatching_list. apply toggleIn_twice_sameMembers.
  - rewrite !toggleCurrentlyReading_list. apply toggleIn_twice_sameMembers.
Qed.

(** C10.  [toggleCurrentlyWatching] always filters the id out of
    [planToWatch], and [toggleCurrentlyReading] out of [planToRead], whether
    the call adds the id to the currently-list or removes it; so right after
    either call the id is not in the plan-list, hence never in both the
    plan-list and the currently-list.  The copy written to the store agrees
    with the React state on these lists. *)
Theorem toggleCurrently_clears_plan_list (env : Env) (m : Anime) (w : World) :
  let ww := toggleCurrentlyWatching env m w in
  let wr := toggleCurrentlyReading env m w in
  planToWatch (listData ww) = filter (λ id, id ≠ a_id m) (planToWatch (listData w))
  ∧ planToRead (listData wr) = filter (λ id, id ≠ a_id m) (planToRead (listData w))
  ∧ (a_id m ∉ planToWatch (listData ww))
  ∧ (a_id m ∉ planToRead (listData wr))
  ∧ ¬ (a_id m ∈ planToWatch (listData ww) ∧ a_id m ∈ currentlyWatching (listData ww))
  ∧ ¬ (a_id m ∈ planToRead (listData wr) ∧ a_id m ∈ currentlyReading (listData wr))
  ∧ (planToWatch <$> idb_listData ww) = Some (planToWatch (listData ww))
  ∧ (planToRead <$> idb_listData wr) = Some (planToRead (listData wr)).
Proof.
  intros ww wr.
  assert (Hw : planToWatch (listData ww)
               = filter (λ id, id ≠ a_id m) (planToWatch (listData w))).
  { subst ww. unfold toggleCurrentlyWatching.
    by rewrite updateAndPersistListData_listData. }
  assert (Hr : planToRead (listData wr)
               = filter (λ id, id ≠ a_id m) (planToRead (listData w))).
  { subst wr. unfold toggleCurrentlyReading.
    by rewrite updateAndPersistListData_listData. }
  split_and!; try done.
  - rewrite Hw. apply not_elem_of_filter_ne.
  - rewrite Hr. apply not_elem_of_filter_ne.
  - rewrite Hw. intros [H _]. by apply not_elem_of_filter_ne in H.
  - rewrite Hr. intros [H _]. by apply not_elem_of_filter_ne in H.
  - apply (updateAndPersistListData_stored_lists _ _ _ PlanToWatch).
  - apply (updateAndPersistListData_stored_lists _ _ _ PlanToRead).
Qed.

(** ** Tracked-media reconciliation *)

Lemma isTracked_true id tracked :
  isTracked id tracked = true ↔ id ∈ trackedIds tracked.
Proof.
  unfold isTracked, trackedIds. rewrite existsb_exists, list_elem_of_fmap.
  split.
  - intros (m & Hin & Hm). apply bool_decide_eq_true in Hm.
    exists m. split; [done|]. by apply list_elem_of_In.
  - intros (m & -> & Hin). exists m. split; [by apply list_elem_of_In|].
    by apply bool_decide_eq_true.
Qed.

Lemma isInAnyList_true id d : isInAnyList id d = true ↔ id ∈ listUnion d.
Proof.
  unfold isInAnyList, listUnion. simpl.
  rewrite !orb_true_iff, !elem_of_app, !bool_decide_eq_true.
  split; [intros [?|[?|[?|[?|?]]]]; auto; done | tauto].
Qed.

Lemma trackedIds_filter_ne id tracked :
  id ∉ trackedIds (filter (λ item, a_id item ≠ id) tracked).
Proof.
  unfold trackedIds. rewrite list_elem_of_fmap.
  intros (m & -> & Hin). apply list_elem_of_filter in Hin. tauto.
Qed.

(** The timer callback of [handleToggleListMembership] leaves the toggled id
    in the stored tracked-media cache exactly when the stored list data has
    it in one of the four lists; it does not write the list data. *)
Lemma handleToggleListMembership_timeout_spec SENSITIVE_GENRES media w :
  let w' := handleToggleListMembership_timeout SENSITIVE_GENRES media w in
  let freshListData := default (initialListData SENSITIVE_GENRES) (idb_listData w) in
  idb_listData w' = idb_listData w
  ∧ (a_id media ∈ trackedIds (default [] (idb_tracked w'))
     ↔ a_id media ∈ listUnion freshListData).
Proof.
  intros w' freshListData. subst w'.
  unfold handleToggleListMembership_timeout. fold freshListData.
  rewrite <- isInAnyList_true.
  destruct (isInAnyList (a_id media) freshListData) eqn:Hany.
  - destruct (isTracked (a_id media) (default [] (idb_tracked w))) eqn:Htr; simpl.
    + split; [done|]. apply isTracked_true in Htr. tauto.
    + split; [done|]. split; [done|]. intros _.
      unfold trackedIds. rewrite fmap_app, elem_of_app. right.
      apply list_elem_of_singleton. done.
  - simpl. split; [done|]. split; [|done].
    intros Hin. by apply trackedIds_filter_ne in Hin.
Qed.

(** Reconciliation after [handleToggleListMembership]: the tracked-media
    cache of the store has the toggled id exactly when the freshly persisted
    list data has it in the union of the four lists. *)
Lemma handleToggleListMembership_reconciles
    (SENSITIVE_GENRES : list string) (env : Env) (media : Anime)
    (listName : ListName) (w : World) :
  let w' :=
    toggleAndReconcile SENSITIVE_GENRES env
      (ToggleListMembership media listName) w in
  match idb_listData w' with
  | Some persisted =>
      getList listName persisted
      = toggleIn (a_id media) (getList listName (listData w))
      ∧ (a_id media ∈ trackedIds (default [] (idb_tracked w'))
         ↔ a_id media ∈ listUnion persisted)
  | None => False
  end.
Proof.
  intros w'. subst w'. unfold toggleAndReconcile.
  pose proof (handleToggleListMembership_timeout_spec SENSITIVE_GENRES media
                (handleToggleListMembership env media listName w)) as [Heq Hiff].
  rewrite Heq.
  pose proof (updateAndPersistListData_stored_lists env
    (λ currentData,
       onlyList listName
         (if bool_decide (a_id media ∈ getList listName currentData)
          then filter (λ id, id ≠ a_id media) (getList listName currentData)
          else getList listName currentData ++ [a_id media]))
    w listName) as Hst.
  fold (handleToggleListMembership env media listName w) in Hst.
  rewrite handleToggleListMembership_list in Hst.
  destruct (idb_listData (handleToggleListMembership env media listName w))
    as [persisted|] eqn:Hp; [|done].
  simpl in Hst, Hiff. split; [congruence | done].
Qed.

(** The timer callback of [toggleCurrentlyWatching] and
    [toggleCurrentlyReading] never removes: after it, the id is in the stored
    cache whatever the lists hold. *)
Lemma toggleCurrently_timeout_tracked media w :
  a_id media ∈ trackedIds (default [] (idb_tracked (toggleCurrently_timeout media w))).
Proof.
  unfold toggleCurrently_timeout.
  destruct (isTracked (a_id media) (default [] (idb_tracked w))) eqn:Htr; simpl.
  - by apply isTracked_true.
  - unfold trackedIds. rewrite fmap_app, elem_of_app. right.
    by apply list_elem_of_singleton.
Qed.

(** Concrete worlds used below. *)
Definition anime (id : Z) : Anime :=
  {| a_id := id; a_type := "ANIME"; a_title := "Title"; a_episodes := Some 12;
     a_chapters := None; a_volumes := None; a_synopsis := Some "Synopsis" |}.

Definition freshWorld : World :=
  {| listData := initialListData []; trackedMedia := [];
     idb_listData := Some (initialListData []); idb_tracked := Some [];
     toasts := []; logs := []; nextUuid := 0 |}.

Definition watching (id : Z) : ListData :=
  spread (initialListData []) (onlyList CurrentlyWatching [id]).

Definition watchingWorld (id : Z) : World :=
  {| listData := watching id;
     trackedMedia := [withoutSynopsis (anime id)];
     idb_listData := Some (watching id);
     idb_tracked := Some [withoutSynopsis (anime id)];
     toasts := []; logs := []; nextUuid := 0 |}.

Definition underQuota : Env :=
  {| storageEstimate := Some (Some 4096); now := 1700000000000 |}.

Definition overQuota : Env :=
  {| storageEstimate := Some (Some (2 * 1024 * 1024 * 1024));
     now := 1700000000000 |}.

(** C1 (the code departs from the claim).  With the usage estimate at 2 GiB
    and the quota at its 1 GiB default, [togglePlanToWatch] of media 1 goes
    through the funnel: the guard answers "blocked" and the block is logged,
    yet the store, which held an empty [planToWatch], now holds [[1]]: the
    guard itself wrote the intended payload together with the one storage
    notification. *)
Theorem quota_veto_still_persists_the_mutation :
  let w' := togglePlanToWatch overQuota (anime 1) freshWorld in
  (checkStorageAndNotify overQuota (listData w') freshWorld).1 = false
  ∧ (planToWatch <$> idb_listData freshWorld) = Some []
  ∧ (planToWatch <$> idb_listData w') = Some [1]
  ∧ (notifications <$> idb_listData w') = Some [storageNotification overQuota]
  ∧ notifications (listData w') = []
  ∧ logs w' = ["Write operation blocked due to storage quota."].
Proof. vm_compute. by split_and!. Qed.

(** C2 (the code departs from the claim).  Media 5 is in [currentlyWatching]
    and tracked.  [toggleCurrentlyWatching] removes it from every list, and
    after the timer callback the freshly persisted lists no longer have the
    id while the tracked-media cache still does.  Starting from an empty
    cache the callback even adds the record of the id just removed. *)
Theorem toggleCurrentlyWatching_keeps_unlisted_id_tracked :
  let w' :=
    toggleAndReconcile [] underQuota (ToggleCurrentlyWatching (anime 5))
      (watchingWorld 5) in
  let w'' :=
    toggleAndReconcile [] underQuota (ToggleCurrentlyWatching (anime 5))
      (setTrackedMedia [] (set_IDB_TRACKED_MEDIA_KEY [] (watchingWorld 5))) in
  (listUnion <$> idb_listData w') = Some []
  ∧ (trackedIds <$> idb_tracked w') = Some [5]
  ∧ trackedIds (trackedMedia w') = [5]
  ∧ (listUnion <$> idb_listData w'') = Some []
  ∧ (trackedIds <$> idb_tracked w'') = Some [5].
Proof. vm_compute. by split_and!. Qed.

(** ** Reminder due-ness *)

Lemma isPast_true now date : isPast now date = true ↔ date < now.
Proof. unfold isPast. apply bool_decide_eq_true. Qed.

Lemma weeklyLoop_true now startDate days :
  weeklyLoop now startDate days = true
  ↔ Forall (λ day, nextOccurrence now startDate day < now) days.
Proof.
  induction days as [|day days IH]; simpl.
  - split; [by constructor | done].
  - rewrite Forall_cons, <- IH, <- isPast_true.
    destruct (isPast now (nextOccurrence now startDate day)); simpl;
      split; try done; tauto.
Qed.

Lemma isReminderDue_weekly now r :
  hasRepeatOnDays r = true →
  isReminderDue now r
  = weeklyLoop now (startDateTime r) (merge_sort Z.le (default [] (repeatOnDays r))).
Proof.
  intros Hw. unfold isReminderDue. rewrite Hw. simpl.
  by rewrite andb_false_r.
Qed.

Lemma getDay_range date : 0 ≤ getDay date ≤ 6.
Proof. unfold getDay. pose proof (Z.mod_pos_bound (date / MS_PER_DAY + 4) 7). lia. Qed.

(** Every occurrence the weekly loop computes for a weekday index that is
    not negative lies after [now]: [nextDay] moves at least one day ahead,
    and [setHours] cannot come back before the start of that day. *)
Lemma nextOccurrence_future now startDate day :
  0 ≤ day → now < nextOccurrence now startDate day.
Proof.
  intros Hday. unfold nextOccurrence, setHours, nextDay, addDays.
  pose proof (getDay_range now) as Hgd.
  set (delta := if bool_decide (day - getDay now ≤ 0)
                then day - getDay now + 7 else day - getDay now).
  assert (Hdelta : 1 ≤ delta) by (subst delta; case_bool_decide; lia).
  assert (HD : 0 < MS_PER_DAY) by done.
  rewrite Z.div_add by lia.
  assert (0 ≤ getHours startDate).
  { unfold getHours. apply Z.div_pos; [|done].
    apply Z.mod_pos_bound. done. }
  assert (0 ≤ getMinutes startDate).
  { unfold getMinutes. apply Z.div_pos; [|done].
    apply Z.mod_pos_bound. done. }
  pose proof (Z.mod_pos_bound now MS_PER_DAY HD) as Hmod.
  pose proof (Z.div_mod now MS_PER_DAY) as Hdm.
  assert (0 ≤ getHours startDate * MS_PER_HOUR) by (apply Z.mul_nonneg_nonneg; done).
  assert (0 ≤ getMinutes startDate * MS_PER_MINUTE) by (apply Z.mul_nonneg_nonneg; done).
  nia.
Qed.

(** A weekly reminder whose weekday indices are not negative (0 is Sunday,
    ..., 6 is Saturday) is never due: the branch that answers "due" cannot be
    reached. *)
Lemma weekly_reminder_never_due (now : Z) (r : Reminder) :
  hasRepeatOnDays r = true →
  Forall (λ day, 0 ≤ day) (default [] (repeatOnDays r)) →
  isReminderDue now r = false.
Proof.
  intros Hw Hdays. rewrite isReminderDue_weekly by done.
  apply not_true_is_false. rewrite weeklyLoop_true, merge_sort_Permutation.
  unfold hasRepeatOnDays in Hw.
  destruct (repeatOnDays r) as [[|day days]|]; simpl in *; try done.
  rewrite Forall_cons. intros [Hpast _].
  apply Forall_cons in Hdays as [Hday _].
  pose proof (nextOccurrence_future now (startDateTime r) day Hday). lia.
Qed.

(** C9.  For an interval reminder ([repeatIntervalDays > 0], no weekly
    days) the due-check answers "due" exactly when [startDateTime] is in the
    past and the whole number of days elapsed since the start is a multiple of
    the interval or greater than zero.  The second conjunct is then always
    true: the answer is "due" exactly when the start is in the past, and in
    particular on every check once more than zero whole days have elapsed. *)
Theorem interval_reminder_due (now : Z) (r : Reminder) :
  repeatIntervalDays r > 0 →
  hasRepeatOnDays r = false →
  let days := daysSinceStart now (startDateTime r) in
  (isReminderDue now r = true
   ↔ startDateTime r < now
     ∧ (Z.rem days (repeatIntervalDays r) = 0 ∨ days > 0))
  ∧ (isReminderDue now r = true ↔ startDateTime r < now)
  ∧ (days > 0 → isReminderDue now r = true).
Proof.
  intros Hk Hw days. unfold isReminderDue. rewrite Hw. simpl.
  rewrite bool_decide_eq_false_2 by lia. simpl.
  fold days.
  assert (Hdays : startDateTime r < now → 0 ≤ days).
  { intros. apply Z.div_pos; [lia | done]. }
  assert (Hpos : days > 0 → startDateTime r < now).
  { intros Hd. destruct (decide (startDateTime r < now)) as [|Hn]; [done|].
    assert (days ≤ 0); [|lia].
    subst days. unfold daysSinceStart.
    assert (now - startDateTime r ≤ 0) as Hle by lia.
    pose proof (Z.div_le_mono _ _ MS_PER_DAY ltac:(done) Hle) as Hdiv.
    by rewrite Z.div_0_l in Hdiv. }
  assert (Hdue : startDateTime r < now →
                 Z.rem days (repeatIntervalDays r) = 0 ∨ days > 0).
  { intros Hp. specialize (Hdays Hp).
    destruct (decide (days = 0)) as [->|]; [left; by rewrite Z.rem_0_l by lia|].
    right. lia. }
  destruct (isPast now (startDateTime r)) eqn:Hpast.
  - apply isPast_true in Hpast.
    rewrite orb_true_iff, !bool_decide_eq_true. split_and!.
    + tauto.
    + split; [done|]. intros _. by apply Hdue.
    + intros. by right.
  - apply not_true_iff_false in Hpast. rewrite isPast_true in Hpast.
    split_and!.
    + split; [done|]. tauto.
    + split; [done|]. tauto.
    + intros Hd. by apply Hpos in Hd.
Qed.

(** An interval reminder every three days, started at the epoch. *)
Definition everyThreeDays : Reminder :=
  {| r_id := Uuid 7; r_mediaId := 1; r_title := "Watch"; r_notes := "notes";
     startDateTime := 0; repeatIntervalDays := 3; repeatOnDays := None;
     autoStopOnCompletion := false |}.

Lemma interval_reminder_due_witness :
  (isReminderDue (5 * MS_PER_DAY) everyThreeDays = true
   ↔ startDateTime everyThreeDays < 5 * MS_PER_DAY)
  ∧ isReminderDue (5 * MS_PER_DAY) everyThreeDays = true.
Proof.
  pose proof (interval_reminder_due (5 * MS_PER_DAY) everyThreeDays
                ltac:(done) ltac:(done)) as (_ & H2 & H3).
  split; [exact H2 | apply H3; done].
Defined.

(** ** Reminder scheduler *)

(** The notifications one pass creates. *)
Definition newNotificationsOf (env : Env) (w : World) : list UserNotification :=
  (foldl (forEachReminder env
            (existingReminderNotifications (notifications (listData w)))
            (trackedMedia w) (listData w))
         ([], w) (reminders (listData w))).1.

(** The number of reminder-kind notifications that reference [rid]. *)
Definition countFor (rid : Ident) (ns : list UserNotification) : nat :=
  length (filter (λ n, reminderIdOf n = Some rid) ns).

(** Worlds that differ in the identifier supply only. *)
Definition sameButUuid (w w' : World) : Prop :=
  listData w' = listData w ∧ trackedMedia w' = trackedMedia w
  ∧ idb_listData w' = idb_listData w ∧ idb_tracked w' = idb_tracked w
  ∧ toasts w' = toasts w ∧ logs w' = logs w.

Lemma sameButUuid_refl w : sameButUuid w w.
Proof. by repeat split. Qed.

Lemma forEachReminder_select env existing tracked d acc w r :
  forEachReminder env existing tracked d (acc, w) r
  = if schedulerSelects env existing tracked d r
    then (acc ++ [reminderNotification env (Uuid (nextUuid w)) r], (uuidv4 w).2)
    else (acc, w).
Proof.
  unfold forEachReminder, schedulerSelects.
  destruct (isPast _ _ && negb _); simpl; [|done].
  by destruct (isMediaCompleted tracked d r).
Qed.

Lemma countFor_app rid ns ms :
  countFor rid (ns ++ ms) = (countFor rid ns + countFor rid ms)%nat.
Proof. unfold countFor. by rewrite filter_app, length_app. Qed.

Lemma countFor_reminderNotification rid env id r :
  countFor rid [reminderNotification env id r]
  = if bool_decide (r_id r = rid) then 1%nat else 0%nat.
Proof.
  unfold countFor. case_bool_decide as Heq.
  - rewrite filter_cons_True; [done|].
    unfold reminderIdOf, reminderNotification. simpl. by rewrite Heq.
  - rewrite filter_cons_False; [done|].
    unfold reminderIdOf, reminderNotification. simpl. congruence.
Qed.

(** The [forEach] loop: what it appends for [rid], and that it touches the
    identifier supply only. *)
Lemma forEach_spec env existing tracked d rid rs :
  ∀ acc w,
    countFor rid (foldl (forEachReminder env existing tracked d) (acc, w) rs).1
    = (countFor rid acc
       + length (filter (λ r, r_id r = rid
                              ∧ schedulerSelects env existing tracked d r = true)
                        rs))%nat
    ∧ sameButUuid w (foldl (forEachReminder env existing tracked d) (acc, w) rs).2.
Proof.
  induction rs as [|r rs IH]; intros acc w; cbn [foldl].
  - simpl. split; [lia | apply sameButUuid_refl].
  - rewrite forEachReminder_select.
    destruct (schedulerSelects env existing tracked d r) eqn:Hsel.
    + specialize (IH (acc ++ [reminderNotification env (Uuid (nextUuid w)) r])
                     (uuidv4 w).2) as [Hc Hs].
      split; [|exact Hs].
      rewrite Hc, countFor_app, countFor_reminderNotification.
      case_bool_decide as Heq.
      * rewrite filter_cons_True by done. simpl. lia.
      * rewrite filter_cons_False by tauto. lia.
    + specialize (IH acc w) as [Hc Hs]. split; [|exact Hs].
      rewrite Hc. rewrite filter_cons_False; [done|].
      intros [_ ?]. congruence.
Qed.

(** One pass appends the notifications it creates to the React state and
    changes nothing else the scheduler reads. *)
Lemma checkReminders_spec env w :
  let w' := checkRemindersAndCreateNotifications env w in
  notifications (listData w') = notifications (listData w) ++ newNotificationsOf env w
  ∧ reminders (listData w') = reminders (listData w)
  ∧ watchedEpisodes (listData w') = watchedEpisodes (listData w)
  ∧ readChapters (listData w') = readChapters (listData w)
  ∧ trackedMedia w' = trackedMedia w.
Proof.
  intros w'. subst w'.
  unfold checkRemindersAndCreateNotifications, newNotificationsOf.
  pose proof (forEach_spec env
                (existingReminderNotifications (notifications (listData w)))
                (trackedMedia w) (listData w) (Uuid 0) (reminders (listData w))
                [] w) as [_ Hs].
  destruct (foldl _ _ _) as [newNotifications w1]. simpl in *.
  destruct Hs as (Hl & Ht & _).
  case_bool_decide as Hlen.
  - rewrite updateAndPersistListData_listData. simpl. rewrite Hl.
    split_and!; try done.
    rewrite (proj2 (updateAndPersistListData_tracked _ _ _)). done.
  - rewrite Hl, Ht. split_and!; try done.
    destruct newNotifications; [by rewrite app_nil_r | simpl in Hlen; lia].
Qed.

Lemma isMediaCompleted_ext tracked d d' r :
  watchedEpisodes d' = watchedEpisodes d →
  readChapters d' = readChapters d →
  isMediaCompleted tracked d' r = isMediaCompleted tracked d r.
Proof. intros Hw Hr. unfold isMediaCompleted. by rewrite Hw, Hr. Qed.

Lemma countFor_existing rid ns :
  rid ∈ existingReminderNotifications ns ↔ (0 < countFor rid ns)%nat.
Proof.
  unfold existingReminderNotifications, countFor.
  rewrite list_elem_of_omap. split.
  - intros (n & Hin & Hn).
    assert (n ∈ filter (λ n, reminderIdOf n = Some rid) ns) as Hf
      by (by apply list_elem_of_filter).
    destruct (filter _ ns); [by apply elem_of_nil in Hf | simpl; lia].
  - intros Hlen.
    destruct (filter (λ n, reminderIdOf n = Some rid) ns) as [|n l] eqn:Hf;
      [simpl in Hlen; lia|].
    assert (n ∈ filter (λ n, reminderIdOf n = Some rid) ns) as Hin
      by (rewrite Hf; apply elem_of_cons; by left).
    apply list_elem_of_filter in Hin as [? ?]. by exists n.
Qed.

(** With unique reminder ids, the reminders of a list that carry the id of
    [r] and satisfy [P] are [r] itself, or none. *)
Lemma length_filter_unique_id (P : Reminder → Prop) `{∀ r, Decision (P r)}
    (rs : list Reminder) (r : Reminder) :
  NoDup (r_id <$> rs) → r ∈ rs →
  length (filter (λ r', r_id r' = r_id r ∧ P r') rs)
  = if decide (P r) then 1%nat else 0%nat.
Proof.
  induction rs as [|r0 rs IH]; intros Hnd Hin.
  - by apply elem_of_nil in Hin.
  - rewrite fmap_cons in Hnd. apply NoDup_cons in Hnd as [Hfresh Hnd].
    apply elem_of_cons in Hin as [->|Hin].
    + assert (filter (λ r', r_id r' = r_id r0 ∧ P r') rs = []) as Hnil.
      { apply elem_of_nil_inv. intros r'
          [[Hid _] Hr']%list_elem_of_filter.
        apply Hfresh. rewrite <- Hid. by apply list_elem_of_fmap_2. }
      destruct (decide (P r0)).
      * rewrite filter_cons_True by done. by rewrite Hnil.
      * rewrite filter_cons_False by tauto. by rewrite Hnil.
    + rewrite filter_cons_False; [by apply IH|].
      intros [Hid _]. apply Hfresh. rewrite Hid. by apply list_elem_of_fmap_2.
Qed.

Lemma schedulerSelects_true env existing tracked d r :
  schedulerSelects env existing tracked d r = true
  ↔ startDateTime r < now env ∧ (r_id r ∉ existing)
    ∧ isMediaCompleted tracked d r = false.
Proof.
  unfold schedulerSelects.
  rewrite !andb_true_iff, !negb_true_iff, isPast_true, bool_decide_eq_false.
  tauto.
Qed.

Lemma newNotificationsOf_count env w rid :
  countFor rid (newNotificationsOf env w)
  = length (filter (λ r, r_id r = rid
                         ∧ schedulerSelects env
                             (existingReminderNotifications (notifications (listData w)))
                             (trackedMedia w) (listData w) r = true)
                   (reminders (listData w))).
Proof.
  unfold newNotificationsOf.
  by destruct (forEach_spec env
                 (existingReminderNotifications (notifications (listData w)))
                 (trackedMedia w) (listData w) rid (reminders (listData w)) [] w)
    as [-> _].
Qed.

(** What one pass adds for a reminder with a unique id. *)
Lemma pass_count env w r :
  NoDup (r_id <$> reminders (listData w)) →
  r ∈ reminders (listData w) →
  countFor (r_id r)
    (notifications (listData (checkRemindersAndCreateNotifications env w)))
  = (countFor (r_id r) (notifications (listData w))
     + if schedulerSelects env
            (existingReminderNotifications (notifications (listData w)))
            (trackedMedia w) (listData w) r
       then 1 else 0)%nat.
Proof.
  intros Hnd Hin.
  destruct (checkReminders_spec env w) as (-> & _).
  rewrite countFor_app, newNotificationsOf_count.
  rewrite (length_filter_unique_id
             (λ r, schedulerSelects env
                     (existingReminderNotifications (notifications (listData w)))
                     (trackedMedia w) (listData w) r = true)) by done.
  destruct (schedulerSelects _ _ _ _ r); by case_decide.
Qed.

Lemma schedulerPasses_cons env envs w :
  schedulerPasses (env :: envs) w
  = schedulerPasses envs (checkRemindersAndCreateNotifications env w).
Proof. done. Qed.

(** Any number of passes: the count for a reminder whose start is in the
    past goes from zero to one in the first pass unless the reminder is
    suppressed, and never moves again. *)
Lemma passes_count (r : Reminder) (envs : list Env) :
  ∀ w,
    Forall (λ env, startDateTime r < now env) envs →
    NoDup (r_id <$> reminders (listData w)) →
    r ∈ reminders (listData w) →
    countFor (r_id r) (notifications (listData (schedulerPasses envs w)))
    = match envs with
      | [] => countFor (r_id r) (notifications (listData w))
      | _ =>
          if bool_decide (countFor (r_id r) (notifications (listData w)) = 0%nat)
             && negb (isMediaCompleted (trackedMedia w) (listData w) r)
          then 1%nat
          else countFor (r_id r) (notifications (listData w))
      end.
Proof.
  induction envs as [|env envs IH]; intros w Hpast Hnd Hin; [done|].
  apply Forall_cons in Hpast as [Hnow Hpast].
  rewrite schedulerPasses_cons.
  destruct (checkReminders_spec env w) as (_ & Hrs & Hwe & Hrc & Htr).
  pose proof (pass_count env w r Hnd Hin) as Hc.
  set (w1 := checkRemindersAndCreateNotifications env w) in *.
  rewrite IH by (rewrite ?Hrs; done).
  rewrite Htr, (isMediaCompleted_ext _ _ _ _ Hwe Hrc), Hc.
  set (c := countFor (r_id r) (notifications (listData w))).
  assert (Hsel :
    schedulerSelects env
      (existingReminderNotifications (notifications (listData w)))
      (trackedMedia w) (listData w) r
    = bool_decide (c = 0%nat)
      && negb (isMediaCompleted (trackedMedia w) (listData w) r)).
  { unfold schedulerSelects.
    rewrite (proj2 (isPast_true _ _) Hnow). simpl. f_equal. subst c.
    case_bool_decide as Hex.
    - apply countFor_existing in Hex. simpl.
      symmetry. apply bool_decide_eq_false. lia.
    - rewrite countFor_existing in Hex. simpl.
      symmetry. apply bool_decide_eq_true. lia. }
  rewrite Hsel.
  destruct (isMediaCompleted (trackedMedia w) (listData w) r);
    destruct envs; repeat case_bool_decide; simpl; lia.
Qed.

(** C4 (amended).  Take a reminder whose [startDateTime] is in the past at
    every pass, whose id no other reminder shares and which no reminder-kind
    notification references yet.  After N ≥ 1 scheduler passes, with nothing
    else changing the state in between, the reminder-kind notifications that
    reference it are exactly one, not N, unless the reminder is suppressed by
    [autoStopOnCompletion] (its tracked media is completed), in which case
    there is none.  The scheduler does not read the repeat fields, so this
    holds for one-shot reminders in particular. *)
Theorem scheduler_notifies_once (envs : list Env) (w : World) (r : Reminder) :
  envs ≠ [] →
  Forall (λ env, startDateTime r < now env) envs →
  r ∈ reminders (listData w) →
  NoDup (r_id <$> reminders (listData w)) →
  reminderNotificationsFor (r_id r) (listData w) = [] →
  length (reminderNotificationsFor (r_id r) (listData (schedulerPasses envs w)))
  = if isMediaCompleted (trackedMedia w) (listData w) r then 0%nat else 1%nat.
Proof.
  intros Hne Hpast Hin Hnd Hnone.
  pose proof (passes_count r envs w Hpast Hnd Hin) as Hc.
  unfold countFor in Hc. unfold reminderNotificationsFor in *.
  rewrite Hc, Hnone. destruct envs; [done|]. simpl.
  by destruct (isMediaCompleted _ _ r).
Qed.

(** C3 (amended).  For a weekly reminder, [isReminderDue] answers "due"
    exactly when every configured weekday's next occurrence, as the loop
    computes it, is in the past; one occurrence that is not makes it answer
    "not due".  The scheduler pass does not consult that answer: it creates a
    notification for the reminder when its [startDateTime] is in the past, no
    reminder-kind notification references it and it is not suppressed by
    [autoStopOnCompletion]; and a notification for its id is created only for
    a reminder with that id that meets these three conditions. *)
Theorem weekly_due_but_scheduler_reads_start_only
    (env : Env) (w : World) (r : Reminder) :
  hasRepeatOnDays r = true →
  r ∈ reminders (listData w) →
  let existing := existingReminderNotifications (notifications (listData w)) in
  let w' := checkRemindersAndCreateNotifications env w in
  (isReminderDue (now env) r = true
   ↔ Forall (λ day, nextOccurrence (now env) (startDateTime r) day < now env)
            (default [] (repeatOnDays r)))
  ∧ (startDateTime r < now env → r_id r ∉ existing →
     isMediaCompleted (trackedMedia w) (listData w) r = false →
     r_id r ∈ existingReminderNotifications (newNotificationsOf env w))
  ∧ (r_id r ∈ existingReminderNotifications (newNotificationsOf env w) →
     ∃ r', r' ∈ reminders (listData w) ∧ r_id r' = r_id r
           ∧ startDateTime r' < now env ∧ (r_id r' ∉ existing)
           ∧ isMediaCompleted (trackedMedia w) (listData w) r' = false)
  ∧ notifications (listData w')
    = notifications (listData w) ++ newNotificationsOf env w.
Proof.
  intros Hw Hin existing w'. split_and!.
  - rewrite isReminderDue_weekly by done.
    by rewrite weeklyLoop_true, merge_sort_Permutation.
  - intros Hpast Hex Hnc.
    rewrite countFor_existing, newNotificationsOf_count.
    assert (r ∈ filter
              (λ r0, r_id r0 = r_id r
                     ∧ schedulerSelects env existing (trackedMedia w)
                         (listData w) r0 = true)
              (reminders (listData w))) as Hf.
    { apply list_elem_of_filter. split; [|done]. split; [done|].
      by apply schedulerSelects_true. }
    fold existing. destruct (filter _ _); [by apply elem_of_nil in Hf|].
    simpl. lia.
  - rewrite countFor_existing, newNotificationsOf_count. fold existing.
    intros Hlen.
    destruct (filter _ (reminders (listData w))) as [|r' l] eqn:Hf;
      [simpl in Hlen; lia|].
    assert (r' ∈ r' :: l) as Hr' by (apply elem_of_cons; by left).
    rewrite <- Hf in Hr'.
    apply list_elem_of_filter in Hr' as [[Hid Hsel] Hr'].
    apply schedulerSelects_true in Hsel. exists r'. tauto.
  - apply checkReminders_spec.
Qed.

(** Concrete reminders and worlds.  Day 0 of the epoch is a Thursday, so the
    instant [saturdayNoon] is noon of Saturday, 3 January 1970. *)
Definition weeklyMonThu : Reminder :=
  {| r_id := Uuid 1; r_mediaId := 1; r_title := "Weekly"; r_notes := "episode";
     startDateTime := 9 * MS_PER_HOUR; repeatIntervalDays := 0;
     repeatOnDays := Some [1; 4]; autoStopOnCompletion := false |}.

Definition oneShot : Reminder :=
  {| r_id := Uuid 2; r_mediaId := 1; r_title := "Once"; r_notes := "episode";
     startDateTime := 9 * MS_PER_HOUR; repeatIntervalDays := 0;
     repeatOnDays := None; autoStopOnCompletion := false |}.

Definition oneShotAutoStop : Reminder :=
  {| r_id := Uuid 3; r_mediaId := 1; r_title := "Once"; r_notes := "episode";
     startDateTime := 9 * MS_PER_HOUR; repeatIntervalDays := 0;
     repeatOnDays := None; autoStopOnCompletion := true |}.

Definition saturdayNoon : Env :=
  {| storageEstimate := None; now := 2 * MS_PER_DAY + 12 * MS_PER_HOUR |}.

Definition tenSecondsLater (env : Env) : Env :=
  {| storageEstimate := storageEstimate env; now := now env + 10000 |}.

Definition threePasses : list Env :=
  [saturdayNoon; tenSecondsLater saturdayNoon;
   tenSecondsLater (tenSecondsLater saturdayNoon)].

(** A world whose only reminder is [r]; media 1 has one episode, and
    [watched] lists the episodes of it the user has marked. *)
Definition reminderWorld (r : Reminder) (watched : list string) : World :=
  let d :=
    {| planToWatch := []; currentlyWatching := [1];
       watchedEpisodes := {[ 1 := watched ]};
       planToRead := []; currentlyReading := []; readChapters := ∅;
       notifications := []; reminders := [r]; hiddenGenres := [];
       sensitiveContentUnlocked := false;
       storageQuota := DEFAULT_STORAGE_QUOTA |} in
  let media :=
    {| a_id := 1; a_type := "ANIME"; a_title := "Title"; a_episodes := Some 1;
       a_chapters := None; a_volumes := None; a_synopsis := None |} in
  {| listData := d; trackedMedia := [media]; idb_listData := Some d;
     idb_tracked := Some [media]; toasts := []; logs := []; nextUuid := 0 |}.

Lemma scheduler_notifies_once_witness :
  length (reminderNotificationsFor (r_id oneShot)
            (listData (schedulerPasses threePasses (reminderWorld oneShot []))))
  = 1%nat.
Proof.
  apply (scheduler_notifies_once threePasses (reminderWorld oneShot []) oneShot).
  - done.
  - repeat constructor.
  - apply elem_of_cons. by left.
  - apply NoDup_singleton.
  - done.
Defined.

(** C4, as stated, fails: a one-shot reminder that is due, with
    [autoStopOnCompletion] set and its media completed, gets no notification
    in any of three passes. *)
Lemma suppressed_one_shot_never_notified :
  let w := reminderWorld oneShotAutoStop ["1"] in
  repeatIntervalDays oneShotAutoStop = 0
  ∧ hasRepeatOnDays oneShotAutoStop = false
  ∧ Forall (λ env, isReminderDue (now env) oneShotAutoStop = true) threePasses
  ∧ reminderNotificationsFor (r_id oneShotAutoStop) (listData w) = []
  ∧ reminderNotificationsFor (r_id oneShotAutoStop)
      (listData (schedulerPasses threePasses w)) = [].
Proof. vm_compute. split_and!; try done. by repeat constructor. Qed.

Lemma weekly_due_but_scheduler_reads_start_only_witness :
  r_id weeklyMonThu
  ∈ existingReminderNotifications
      (newNotificationsOf saturdayNoon (reminderWorld weeklyMonThu [])).
Proof.
  pose proof (weekly_due_but_scheduler_reads_start_only saturdayNoon
                (reminderWorld weeklyMonThu []) weeklyMonThu eq_refl) as H.
  destruct H as (_ & H & _).
  - apply elem_of_cons. by left.
  - apply H; [done | apply not_elem_of_nil | done].
Defined.

(** C3, as stated, fails: on Saturday noon the Monday occurrence of a
    Monday/Thursday reminder is still ahead and [isReminderDue] answers "not
    due", yet the scheduler pass creates the reminder notification. *)
Lemma weekly_pending_occurrence_yet_notified :
  let w := reminderWorld weeklyMonThu [] in
  let w' := checkRemindersAndCreateNotifications saturdayNoon w in
  hasRepeatOnDays weeklyMonThu = true
  ∧ getDay (now saturdayNoon) = 6
  ∧ now saturdayNoon
    < nextOccurrence (now saturdayNoon) (startDateTime weeklyMonThu) 1
  ∧ isReminderDue (now saturdayNoon) weeklyMonThu = false
  ∧ notifications (listData w) = []
  ∧ reminderIdOf <$> notifications (listData w') = [Some (r_id weeklyMonThu)].
Proof. vm_compute. by split_and!. Qed.

(** ** Hidden genres *)

Lemma arrayFromSet_elem_of x xs : x ∈ arrayFromSet xs ↔ x ∈ xs.
Proof.
  induction xs as [|y xs IH]; simpl; [done|].
  rewrite !elem_of_cons, list_elem_of_filter, IH.
  destruct (decide (x = y)); tauto.
Qed.

Lemma arrayFromSet_NoDup xs : NoDup (arrayFromSet xs).
Proof.
  induction xs as [|y xs IH]; simpl; [constructor|].
  apply NoDup_cons. split; [|by apply NoDup_filter].
  rewrite list_elem_of_filter. tauto.
Qed.

Lemma typeOfGenre_Some_name genres_list name t :
  typeOfGenre genres_list name = Some t → name ∈ g_name <$> genres_list.
Proof.
  unfold typeOfGenre. destruct (find _ genres_list) as [g|] eqn:Hf; [|done].
  intros _. apply find_some in Hf as [Hin Hg].
  apply bool_decide_eq_true in Hg. subst name.
  apply list_elem_of_fmap_2. by apply list_elem_of_In.
Qed.

(** The user's choice joined, while content is locked, with the built-in
    list. *)
Definition chosenHidden (SENSITIVE_GENRES : list string) (d : ListData)
    (x : string) : Prop :=
  if sensitiveContentUnlocked d then x ∈ hiddenGenres d
  else x ∈ SENSITIVE_GENRES ∨ x ∈ hiddenGenres d.

Lemma finalHidden_elem_of SENSITIVE_GENRES d x :
  x ∈ finalHidden SENSITIVE_GENRES (Some d) ↔ chosenHidden SENSITIVE_GENRES d x.
Proof.
  unfold finalHidden, chosenHidden.
  destruct (sensitiveContentUnlocked d); [done|].
  by rewrite arrayFromSet_elem_of, elem_of_app.
Qed.

(** The catalogue lists the name as a genre or as a tag. *)
Definition knownGenre (genres_list : list GenreEntry) (x : string) : Prop :=
  typeOfGenre genres_list x = Some "genre"
  ∨ typeOfGenre genres_list x = Some "tag".

Lemma effectiveHidden_elem_of SENSITIVE_GENRES genres_list d x :
  x ∈ effectiveHidden SENSITIVE_GENRES genres_list d
  ↔ chosenHidden SENSITIVE_GENRES d x ∧ knownGenre genres_list x.
Proof.
  unfold effectiveHidden, getHiddenGenres, knownGenre.
  rewrite elem_of_app, !list_elem_of_filter, finalHidden_elem_of.
  simpl. split.
  - intros [(Ht & _ & Hc)|(Ht & _ & Hc)]; tauto.
  - intros [Hc [Ht|Ht]]; [left|right];
      (split; [done|]; split; [|done]);
      by eapply typeOfGenre_Some_name.
Qed.

(** Whatever the catalogue, a hidden name it does not list never reaches a
    query. *)
Lemma effectiveHidden_drops_unknown SENSITIVE_GENRES genres_list d x :
  x ∉ g_name <$> genres_list →
  x ∉ effectiveHidden SENSITIVE_GENRES genres_list d.
Proof.
  intros Hun Hin.
  apply effectiveHidden_elem_of in Hin as [_ [Ht|Ht]];
    by apply typeOfGenre_Some_name in Ht.
Qed.

(** C8 (amended).  The names a catalogue query excludes are those of
    [SENSITIVE_GENRES ∪ H] while sensitive content is locked, and those of
    [H] once it is unlocked, restricted in both cases to the names that the
    genre catalogue [genres_list] lists as a genre or as a tag; a name the
    catalogue does not know is dropped.  When the catalogue knows every name
    of [SENSITIVE_GENRES] and [H], the excluded names are exactly
    [SENSITIVE_GENRES ∪ H], respectively [H]. *)
Theorem effectiveHidden_is_known_part_of_union
    (SENSITIVE_GENRES : list string) (genres_list : list GenreEntry)
    (d : ListData) :
  (∀ x, x ∈ effectiveHidden SENSITIVE_GENRES genres_list d
        ↔ (if sensitiveContentUnlocked d then x ∈ hiddenGenres d
           else x ∈ SENSITIVE_GENRES ∨ x ∈ hiddenGenres d)
          ∧ knownGenre genres_list x)
  ∧ ((∀ x, x ∈ SENSITIVE_GENRES ++ hiddenGenres d → knownGenre genres_list x) →
     ∀ x, x ∈ effectiveHidden SENSITIVE_GENRES genres_list d
          ↔ (if sensitiveContentUnlocked d then x ∈ hiddenGenres d
             else x ∈ SENSITIVE_GENRES ∨ x ∈ hiddenGenres d)).
Proof.
  split; [intros x; apply effectiveHidden_elem_of|].
  intros Hknown x. rewrite effectiveHidden_elem_of. unfold chosenHidden.
  split; [tauto|].
  intros Hc. split; [done|]. apply Hknown. apply elem_of_app.
  destruct (sensitiveContentUnlocked d); tauto.
Qed.

(** Non-membership in a list given by its elements. *)
Ltac not_in_concrete_list :=
  let H := fresh "H" in
  intros H;
  repeat (apply elem_of_cons in H as [H|H]; [discriminate H|]);
  by apply elem_of_nil in H.

(** A small catalogue, a built-in list and a user's list with one name the
    catalogue does not have. *)
Definition sampleGenres : list GenreEntry :=
  [ {| g_name := "Ecchi"; g_type := "genre" |};
    {| g_name := "Hentai"; g_type := "genre" |};
    {| g_name := "Nudity"; g_type := "tag" |} ].

Definition sampleSensitive : list string := ["Hentai"; "Nudity"].

Definition hiding (unlocked : bool) (H : list string) : ListData :=
  {| planToWatch := []; currentlyWatching := []; watchedEpisodes := ∅;
     planToRead := []; currentlyReading := []; readChapters := ∅;
     notifications := []; reminders := []; hiddenGenres := H;
     sensitiveContentUnlocked := unlocked;
     storageQuota := DEFAULT_STORAGE_QUOTA |}.

(** Every catalogue is finite, so some name is outside it; a user's list
    that holds such a name is not what the queries exclude, locked or not. *)
Lemma every_catalogue_drops_some_name
    (SENSITIVE_GENRES : list string) (genres_list : list GenreEntry)
    (unlocked : bool) :
  let x := fresh (g_name <$> genres_list) in
  x ∈ hiddenGenres (hiding unlocked [x])
  ∧ (x ∉ effectiveHidden SENSITIVE_GENRES genres_list (hiding unlocked [x])).
Proof.
  intros x. split.
  - simpl. by apply list_elem_of_singleton.
  - apply effectiveHidden_drops_unknown. apply infinite_is_fresh.
Qed.

(** C8, as stated, fails: with ["Unlisted"] in the user's list [H], the
    names applied to queries are neither [SENSITIVE_GENRES ∪ H] (locked) nor
    [H] (unlocked): the name is in [H] and in neither effective set. *)
Lemma unlisted_hidden_name_is_dropped :
  let locked := hiding false ["Ecchi"; "Unlisted"] in
  let unlocked := hiding true ["Ecchi"; "Unlisted"] in
  "Unlisted" ∈ hiddenGenres locked
  ∧ ("Unlisted" ∉ effectiveHidden sampleSensitive sampleGenres locked)
  ∧ "Unlisted" ∈ hiddenGenres unlocked
  ∧ ("Unlisted" ∉ effectiveHidden sampleSensitive sampleGenres unlocked)
  ∧ effectiveHidden sampleSensitive sampleGenres locked
    = ["Hentai"; "Ecchi"; "Nudity"]
  ∧ effectiveHidden sampleSensitive sampleGenres unlocked = ["Ecchi"].
Proof.
  intros locked unlocked.
  assert (Hl : effectiveHidden sampleSensitive sampleGenres locked
               = ["Hentai"; "Ecchi"; "Nudity"]) by (by vm_compute).
  assert (Hu : effectiveHidden sampleSensitive sampleGenres unlocked
               = ["Ecchi"]) by (by vm_compute).
  rewrite Hl, Hu. simpl. split_and!; try done.
  - apply elem_of_cons. right. apply elem_of_cons. by left.
  - not_in_concrete_list.
  - apply elem_of_cons. right. apply elem_of_cons. by left.
  - not_in_concrete_list.
Qed.

(** ** Shared-data sync *)

(** The snapshot a settled [fetch] delivers: a response that is [ok], not a
    304, whose body parses to a value with a truthy [profile] and a truthy
    [lists]. *)
Definition snapshotOf (outcome : FetchOutcome) : option Json :=
  match outcome with
  | FetchRejected _ => None
  | FetchResolved response =>
      if bool_decide (status response = 304) then None
      else if ok response then
        match body response with
        | inl _ => None
        | inr data =>
            if falsy (getProperty "profile" data)
               || falsy (getProperty "lists" data)
            then None else Some data
        end
      else None
  end.

Definition notModified (outcome : FetchOutcome) : bool :=
  match outcome with
  | FetchRejected _ => false
  | FetchResolved response => bool_decide (status response = 304)
  end.

(** A sync call gets as far as [fetch]: a target is stored and no sync is in
    flight. *)
Definition connected (w : SyncWorld) (currentConfig : SharedDataConfig)
    (u : string) : Prop :=
  idb_shared w = Some currentConfig ∧ url currentConfig = Some u ∧ u ≠ ""
  ∧ isSyncing w = false.

Lemma syncSharedData_connected proxyUrl now outcome isManualTrigger w
    currentConfig u :
  connected w currentConfig u →
  syncSharedData proxyUrl now outcome isManualTrigger w
  = let w1 :=
      recordFetch (proxyUrl u) (requestHeaders isManualTrigger currentConfig)
        (setIsSyncing true w) in
    setIsSyncing false
      match trySync now currentConfig isManualTrigger outcome w1 with
      | inr w2 => w2
      | inl message =>
          disconnectFromSharedData false
            (syncToast {| t_destructive := true; t_title := "Sync Failed";
                          t_description := message |} w1)
      end.
Proof.
  intros (Hs & Hu & Hne & Hbusy). unfold syncSharedData.
  rewrite Hs, Hu, Hbusy. by rewrite bool_decide_eq_false_2.
Qed.

Lemma trySync_fails now currentConfig isManualTrigger outcome w :
  notModified outcome = false → snapshotOf outcome = None →
  ∃ message, trySync now currentConfig isManualTrigger outcome w = inl message.
Proof.
  unfold notModified, snapshotOf, trySync. intros Hnm Hsnap.
  destruct outcome as [message|response]; [by eexists|].
  rewrite Hnm in *. destruct (ok response); [|by eexists].
  destruct (body response) as [message|data]; [by eexists|].
  destruct (falsy (getProperty "profile" data)
            || falsy (getProperty "lists" data)) eqn:Hf; [|done].
  destruct data; first [by eexists | rewrite Hf; by eexists].
Qed.

Lemma trySync_snapshot now currentConfig isManualTrigger outcome w data :
  snapshotOf outcome = Some data →
  ∃ response,
    outcome = FetchResolved response
    ∧ trySync now currentConfig isManualTrigger outcome w
      = inr (scheduleReload
               (syncToast {| t_destructive := false;
                             t_title := "Sync Successful";
                             t_description := "Reloading app." |}
                  (storeSharedDataConfig
                     {| url := url currentConfig; lastSync := Some now;
                        lastEtag := etag response;
                        lastSize := Some (default 0 (contentLength response)) |}
                     (storeSnapshot (getProperty "profile" data)
                        (getProperty "lists" data)
                        (getProperty "layout" data)
                        (getProperty "tracked" data) w)))).
Proof.
  unfold snapshotOf, trySync. intros Hsnap.
  destruct outcome as [message|response]; [done|]. exists response.
  split; [done|].
  destruct (bool_decide (status response = 304)); [done|].
  destruct (ok response); [|done].
  destruct (body response) as [message|data']; [done|].
  destruct (falsy (getProperty "profile" data')
            || falsy (getProperty "lists" data')) eqn:Hf; [done|].
  injection Hsnap as ->. destruct data; try done.
Qed.

(** C5.  A sync attempt (a target is stored, no sync in flight) whose fetch
    is rejected, whose response is neither a 304 nor [ok], whose body does not
    parse, or whose parsed body lacks a truthy [profile] or [lists], ends
    disconnected: the shared-data config is all-null, url included, in the
    store and in the React state.  The four data stores are untouched and no
    reload is scheduled; the attempt made its one fetch, the failure is
    toasted, and every later sync call is a no-op that fetches nothing, so
    nothing is retried.  Conversely a sync attempt changes a data store only
    when the response carried a snapshot with both fields, and then [profile]
    and [lists] are overwritten with the snapshot's values, [layout] and
    [tracked] when the snapshot has them. *)
Theorem sync_failure_disconnects
    (proxyUrl : string → string) (now : Z) (outcome : FetchOutcome)
    (isManualTrigger : bool) (w : SyncWorld)
    (currentConfig : SharedDataConfig) (u : string) :
  connected w currentConfig u →
  let w' := syncSharedData proxyUrl now outcome isManualTrigger w in
  (notModified outcome = false → snapshotOf outcome = None →
     idb_shared w' = Some disconnectedConfig
     ∧ sharedDataConfig w' = disconnectedConfig
     ∧ url disconnectedConfig = None
     ∧ idb_profile w' = idb_profile w ∧ idb_lists w' = idb_lists w
     ∧ idb_layout w' = idb_layout w ∧ idb_trackedJson w' = idb_trackedJson w
     ∧ reloads w' = reloads w
     ∧ isSyncing w' = false
     ∧ fetches w'
       = fetches w ++ [(proxyUrl u, requestHeaders isManualTrigger currentConfig)]
     ∧ (∃ message,
          syncToasts w'
          = syncToasts w ++ [{| t_destructive := true; t_title := "Sync Failed";
                                t_description := message |}])
     ∧ (∀ now' outcome' manual',
          syncSharedData proxyUrl now' outcome' manual' w' = w'))
  ∧ (∀ data, snapshotOf outcome = Some data →
       idb_profile w' = getProperty "profile" data
       ∧ idb_lists w' = getProperty "lists" data
       ∧ idb_layout w'
         = (if falsy (getProperty "layout" data) then idb_layout w
            else getProperty "layout" data)
       ∧ idb_trackedJson w'
         = (if falsy (getProperty "tracked" data) then idb_trackedJson w
            else getProperty "tracked" data)
       ∧ reloads w' = S (reloads w))
  ∧ (snapshotOf outcome = None →
       idb_profile w' = idb_profile w ∧ idb_lists w' = idb_lists w
       ∧ idb_layout w' = idb_layout w ∧ idb_trackedJson w' = idb_trackedJson w).
Proof.
  intros Hc w'. subst w'.
  rewrite (syncSharedData_connected _ _ _ _ _ _ _ Hc).
  cbv zeta. split_and!.
  - intros Hnm Hsnap.
    destruct (trySync_fails now currentConfig isManualTrigger outcome
                (recordFetch (proxyUrl u)
                   (requestHeaders isManualTrigger currentConfig)
                   (setIsSyncing true w)) Hnm Hsnap) as [message ->].
    simpl. split_and!; try done.
    by exists message.
  - intros data Hsnap.
    destruct (trySync_snapshot now currentConfig isManualTrigger outcome
                (recordFetch (proxyUrl u)
                   (requestHeaders isManualTrigger currentConfig)
                   (setIsSyncing true w)) data Hsnap) as (response & _ & ->).
    simpl. done.
  - intros Hsnap. destruct (notModified outcome) eqn:Hnm.
    + destruct outcome as [|response]; [done|]. simpl in Hnm.
      unfold trySync. rewrite Hnm. by destruct isManualTrigger.
    + destruct (trySync_fails now currentConfig isManualTrigger outcome
                  (recordFetch (proxyUrl u)
                     (requestHeaders isManualTrigger currentConfig)
                     (setIsSyncing true w)) Hnm Hsnap) as [message ->].
      done.
Qed.

(** Every sync attempt makes exactly one request, with the headers chosen
    before the response is known. *)
Lemma syncSharedData_fetches proxyUrl now outcome isManualTrigger w
    currentConfig u :
  connected w currentConfig u →
  fetches (syncSharedData proxyUrl now outcome isManualTrigger w)
  = fetches w ++ [(proxyUrl u, requestHeaders isManualTrigger currentConfig)].
Proof.
  intros Hc. rewrite (syncSharedData_connected _ _ _ _ _ _ _ Hc). cbv zeta.
  destruct (snapshotOf outcome) as [data|] eqn:Hsnap.
  - destruct (trySync_snapshot now currentConfig isManualTrigger outcome
                (recordFetch (proxyUrl u)
                   (requestHeaders isManualTrigger currentConfig)
                   (setIsSyncing true w)) data Hsnap) as (response & _ & ->).
    done.
  - destruct (notModified outcome) eqn:Hnm.
    + destruct outcome as [|response]; [done|]. simpl in Hnm.
      unfold trySync. rewrite Hnm. by destruct isManualTrigger.
    + destruct (trySync_fails now currentConfig isManualTrigger outcome
                  (recordFetch (proxyUrl u)
                     (requestHeaders isManualTrigger currentConfig)
                     (setIsSyncing true w)) Hnm Hsnap) as [message ->].
      done.
Qed.

(** C6.  With a stored ETag and a response of status 304, a sync attempt
    leaves the stores of profile, lists, layout and tracked media and the
    shared-data config as they were and schedules no reload.  A non-manual
    sync shows nothing; a manual sync shows the "Already Up-to-Date" notice.
    Whatever the server answers, a non-manual sync sends the stored ETag as
    [If-None-Match] and a manual sync sends no conditional header. *)
Theorem sync_304_is_noop
    (proxyUrl : string → string) (now : Z) (response : Response)
    (isManualTrigger : bool) (w : SyncWorld)
    (currentConfig : SharedDataConfig) (u e : string) :
  connected w currentConfig u →
  lastEtag currentConfig = Some e → e ≠ "" →
  status response = 304 →
  let w' :=
    syncSharedData proxyUrl now (FetchResolved response) isManualTrigger w in
  idb_profile w' = idb_profile w ∧ idb_lists w' = idb_lists w
  ∧ idb_layout w' = idb_layout w ∧ idb_trackedJson w' = idb_trackedJson w
  ∧ idb_shared w' = idb_shared w ∧ sharedDataConfig w' = sharedDataConfig w
  ∧ reloads w' = reloads w
  ∧ isSyncing w' = false
  ∧ syncToasts w'
    = syncToasts w
      ++ (if isManualTrigger
          then [{| t_destructive := false; t_title := "Already Up-to-Date";
                   t_description := "" |}]
          else [])
  ∧ (∀ now' outcome,
       fetches (syncSharedData proxyUrl now' outcome false w)
       = fetches w ++ [(proxyUrl u, [("If-None-Match", e)])])
  ∧ (∀ now' outcome,
       fetches (syncSharedData proxyUrl now' outcome true w)
       = fetches w ++ [(proxyUrl u, [])]).
Proof.
  intros Hc He Hne H304 w'. subst w'.
  assert (Hh : requestHeaders false currentConfig = [("If-None-Match", e)]).
  { unfold requestHeaders. rewrite He. by rewrite bool_decide_eq_false_2. }
  split_and!;
    try (rewrite (syncSharedData_connected _ _ _ _ _ _ _ Hc); cbv zeta;
         unfold trySync; rewrite bool_decide_eq_true_2 by done;
         by destruct isManualTrigger).
  - rewrite (syncSharedData_connected _ _ _ _ _ _ _ Hc). cbv zeta.
    unfold trySync. rewrite bool_decide_eq_true_2 by done.
    destruct isManualTrigger; simpl; [done|]. by rewrite app_nil_r.
  - intros now' outcome.
    by rewrite (syncSharedData_fetches _ _ _ _ _ _ _ Hc), Hh.
  - intros now' outcome.
    by rewrite (syncSharedData_fetches _ _ _ _ _ _ _ Hc).
Qed.

(** A connected client and some server answers. *)
Definition gistUrl : string := "https://gist.github.com/user/0123abcd".

Definition gistConfig : SharedDataConfig :=
  {| url := Some gistUrl; lastSync := Some 1700000000000; lastSize := Some 42;
     lastEtag := Some "W/1" |}.

Definition syncedWorld : SyncWorld :=
  {| sharedDataConfig := gistConfig; isSyncing := false;
     idb_profile := Some (JObject [("username", JString "ann")]);
     idb_lists := Some (JObject [("planToWatch", JArray [JNumber 1])]);
     idb_layout := None; idb_trackedJson := None;
     idb_shared := Some gistConfig; syncToasts := []; fetches := [];
     reloads := 0 |}.

Definition relay (target : string) : string := "/api/proxy?url=" +:+ target.

(** A 200 response whose snapshot has a [profile] and no [lists]. *)
Definition missingLists : FetchOutcome :=
  FetchResolved
    {| status := 200; statusText := "OK"; etag := Some "W/2";
       contentLength := Some 30;
       body := inr (JObject [("profile", JObject [("username", JString "bob")])]) |}.

Definition notModified304 : Response :=
  {| status := 304; statusText := "Not Modified"; etag := Some "W/1";
     contentLength := None; body := inl "Unexpected end of JSON input" |}.

Lemma syncedWorld_connected : connected syncedWorld gistConfig gistUrl.
Proof. by repeat split. Qed.

Lemma sync_failure_disconnects_witness :
  let w' := syncSharedData relay 1700000180000 missingLists false syncedWorld in
  idb_shared w' = Some disconnectedConfig
  ∧ idb_lists w' = idb_lists syncedWorld
  ∧ length (fetches w') = 1%nat.
Proof.
  pose proof (sync_failure_disconnects relay 1700000180000 missingLists false
                syncedWorld gistConfig gistUrl syncedWorld_connected)
    as (H & _ & _).
  destruct (H eq_refl eq_refl)
    as (H1 & _ & _ & _ & H2 & _ & _ & _ & _ & H3 & _).
  split_and!; [exact H1 | exact H2 | by rewrite H3].
Defined.

Lemma sync_304_is_noop_witness :
  let w' :=
    syncSharedData relay 1700000180000 (FetchResolved notModified304) false
      syncedWorld in
  idb_profile w' = idb_profile syncedWorld
  ∧ idb_lists w' = idb_lists syncedWorld
  ∧ reloads w' = 0%nat
  ∧ fetches w' = [(relay gistUrl, [("If-None-Match", "W/1")])]
  ∧ syncToasts w' = [].
Proof.
  pose proof (sync_304_is_noop relay 1700000180000 notModified304 false
                syncedWorld gistConfig gistUrl "W/1" syncedWorld_connected
                eq_refl ltac:(done) eq_refl)
    as (H1 & H2 & _ & _ & _ & _ & H3 & _ & H5 & H4 & _).
  split_and!; [exact H1 | exact H2 | exact H3 | | exact H5].
  exact (H4 1700000180000 (FetchResolved notModified304)).
Defined.

(** ** Further instances *)

Lemma weekly_reminder_never_due_witness :
  isReminderDue (now saturdayNoon) weeklyMonThu = false.
Proof.
  apply weekly_reminder_never_due; [done|].
  simpl. by repeat constructor.
Defined.

Lemma quota_veto_stores_updatedData_witness :
  let w' :=
    updateAndPersistListData overQuota (onlyList PlanToWatch ∘ const [1])
      freshWorld in
  (getList PlanToWatch <$> idb_listData w') = Some [1]
  ∧ logs w' = ["Write operation blocked due to storage quota."].
Proof.
  pose proof (quota_veto_stores_updatedData overQuota
                (onlyList PlanToWatch ∘ const [1]) freshWorld eq_refl)
    as (_ & H1 & H2 & _).
  split; [exact (H1 PlanToWatch) | exact H2].
Defined.

(** * More of the engine *)

From stdpp Require Import pretty.

Local Open Scope string_scope.
Local Open Scope Z_scope.
Local Open Scope list_scope.

(** ** Progress tracking: watched episodes and read chapters *)

(** [{ watchedEpisodes: m }] *)
Definition onlyWatchedEpisodes (m : gmap Z (list string)) : PartialListData :=
  {| p_planToWatch := None; p_currentlyWatching := None;
     p_watchedEpisodes := Some m; p_planToRead := None;
     p_currentlyReading := None; p_readChapters := None;
     p_notifications := None; p_reminders := None; p_hiddenGenres := None;
     p_sensitiveContentUnlocked := None; p_storageQuota := None |}.

(** [{ readChapters: m }] *)
Definition onlyReadChapters (m : gmap Z ReadChapters) : PartialListData :=
  {| p_planToWatch := None; p_currentlyWatching := None;
     p_watchedEpisodes := None; p_planToRead := None;
     p_currentlyReading := None; p_readChapters := Some m;
     p_notifications := None; p_reminders := None; p_hiddenGenres := None;
     p_sensitiveContentUnlocked := None; p_storageQuota := None |}.

(** [const s = new Set(xs); if (s.has(x)) s.delete(x); else s.add(x);
     Array.from(s)]: a [Set] keeps insertion order, [delete] leaves the order
    of the others, [add] appends. *)
Definition toggleInSet (x : string) (xs : list string) : list string :=
  let s := arrayFromSet xs in
  if bool_decide (x ∈ s) then filter (λ y, y ≠ x) s else s ++ [x].

(** [toggleEpisodeWatched(anime, episodeId)] *)
Definition toggleEpisodeWatched (env : Env) (anime : Anime) (episodeId : string)
    (w : World) : World :=
  updateAndPersistListData env
    (λ d,
       let watched :=
         toggleInSet episodeId (default [] (watchedEpisodes d !! a_id anime)) in
       onlyWatchedEpisodes (<[a_id anime := watched]> (watchedEpisodes d)))
    w.

(** [toggleChapterRead(manga, chapterId)] *)
Definition toggleChapterRead (env : Env) (manga : Anime) (chapterId : string)
    (w : World) : World :=
  updateAndPersistListData env
    (λ d,
       let read' :=
         toggleInSet chapterId
           (default [] (read <$> readChapters d !! a_id manga)) in
       onlyReadChapters
         (<[a_id manga := {| read := read'; lastRead := now env |}]>
            (readChapters d)))
    w.

(** [unwatchAllEpisodes(anime)] *)
Definition unwatchAllEpisodes (env : Env) (anime : Anime) (w : World) : World :=
  updateAndPersistListData env
    (λ d, onlyWatchedEpisodes (delete (a_id anime) (watchedEpisodes d))) w.

(** [unmarkAllChaptersRead(manga)] *)
Definition unmarkAllChaptersRead (env : Env) (manga : Anime) (w : World) : World :=
  updateAndPersistListData env
    (λ d, onlyReadChapters (delete (a_id manga) (readChapters d))) w.

(** [Array.from({ length: count }, (_, i) => String(i + 1))] *)
Definition episodeIds (count : Z) : list string :=
  (λ i : nat, pretty (Z.of_nat i + 1)) <$> seq 0 (Z.to_nat count).

(** [watchAllEpisodes(anime)].  [nextAiringEpisode] is the [episode] number
    of [anime.nextAiringEpisode] when the record has one; the field is not
    among those of [Anime] above. *)
Definition watchAllEpisodes (env : Env) (anime : Anime)
    (nextAiringEpisode : option Z) (w : World) : World :=
  let count :=
    match nextAiringEpisode with
    | Some episode => Some (episode - 1)
    | None => a_episodes anime
    end in
  match count with
  | None => w
  | Some count =>
      if bool_decide (count = 0) || bool_decide (count ≤ 0) then w
      else
        let allIds := episodeIds count in
        updateAndPersistListData env
          (λ d, onlyWatchedEpisodes (<[a_id anime := allIds]> (watchedEpisodes d)))
          w
  end.

(** [markAllChaptersRead(manga, allChapterIds)] *)
Definition markAllChaptersRead (env : Env) (manga : Anime)
    (allChapterIds : list string) (w : World) : World :=
  if bool_decide (length allChapterIds = 0%nat) then w
  else
    updateAndPersistListData env
      (λ d,
         onlyReadChapters
           (<[a_id manga := {| read := allChapterIds; lastRead := now env |}]>
              (readChapters d)))
      w.

Definition clearCompletedList (env : Env) (w : World) : World :=
  updateAndPersistListData env (λ _, onlyWatchedEpisodes ∅) w.

Definition clearReadList (env : Env) (w : World) : World :=
  updateAndPersistListData env (λ _, onlyReadChapters ∅) w.

(** [removeItemFromList(itemId, listName)]: the [switch] over the page
    names; any other name falls through without a call. *)
Definition removeItemFromList (env : Env) (itemId : Z) (listName : string)
    (w : World) : World :=
  let item :=
    {| a_id := itemId; a_type := ""; a_title := ""; a_episodes := None;
       a_chapters := None; a_volumes := None; a_synopsis := None |} in
  if bool_decide (listName = "watching") then
    updateAndPersistListData env
      (λ d, onlyList CurrentlyWatching
              (filter (λ id, id ≠ itemId) (currentlyWatching d))) w
  else if bool_decide (listName = "plan-to-watch") then
    updateAndPersistListData env
      (λ d, onlyList PlanToWatch (filter (λ id, id ≠ itemId) (planToWatch d))) w
  else if bool_decide (listName = "completed") then
    unwatchAllEpisodes env item w
  else if bool_decide (listName = "reading") then
    updateAndPersistListData env
      (λ d, onlyList CurrentlyReading
              (filter (λ id, id ≠ itemId) (currentlyReading d))) w
  else if bool_decide (listName = "plan-to-read") then
    updateAndPersistListData env
      (λ d, onlyList PlanToRead (filter (λ id, id ≠ itemId) (planToRead d))) w
  else if bool_decide (listName = "read") then
    unmarkAllChaptersRead env item w
  else w.

(** [Object.keys(watchedEpisodes).map(Number)
      .filter(id => watchedEpisodes[id]?.length > 0)], as a predicate: the
    ids [getAllWatchedAnime] asks the catalogue for. *)
Definition isWatchedId (d : ListData) (id : Z) : bool :=
  match watchedEpisodes d !! id with
  | Some episodes => bool_decide (0 < length episodes)%nat
  | None => false
  end.

(** [deleteReminder(id)] *)
Definition deleteReminder (env : Env) (id : Ident) (w : World) : World :=
  updateAndPersistListData env
    (λ currentData,
       {| p_planToWatch := None; p_currentlyWatching := None;
          p_watchedEpisodes := None; p_planToRead := None;
          p_currentlyReading := None; p_readChapters := None;
          p_notifications :=
            Some (filter (λ n, reminderIdOf n ≠ Some id)
                         (notifications currentData));
          p_reminders :=
            Some (filter (λ r, r_id r ≠ id) (reminders currentData));
          p_hiddenGenres := None; p_sensitiveContentUnlocked := None;
          p_storageQuota := None |})
    w.

(** *** Sets of episode and chapter ids *)

Lemma filter_ne_absent_string (x : string) (l : list string) :
  x ∉ l → filter (λ y, y ≠ x) l = l.
Proof.
  induction l as [|y l IH]; [done|]. intros Hy.
  apply not_elem_of_cons in Hy as [Hne Hl].
  rewrite filter_cons_True by congruence. by rewrite IH.
Qed.

Lemma arrayFromSet_id xs : NoDup xs → arrayFromSet xs = xs.
Proof.
  induction xs as [|y xs IH]; [done|]. intros [Hy Hnd]%NoDup_cons. simpl.
  rewrite IH by done. by rewrite filter_ne_absent_string.
Qed.

Lemma toggleInSet_NoDup x xs : NoDup (toggleInSet x xs).
Proof.
  unfold toggleInSet. case_bool_decide as Hin.
  - apply NoDup_filter, arrayFromSet_NoDup.
  - apply NoDup_app. split_and!.
    + apply arrayFromSet_NoDup.
    + intros y Hy Hy'. apply list_elem_of_singleton in Hy' as ->. done.
    + apply NoDup_singleton.
Qed.

Lemma toggleInSet_elem_of x xs e :
  e ∈ toggleInSet x xs ↔ (e ≠ x ∧ e ∈ xs) ∨ (e = x ∧ x ∉ xs).
Proof.
  unfold toggleInSet. case_bool_decide as Hin;
    rewrite arrayFromSet_elem_of in Hin.
  - rewrite list_elem_of_filter, arrayFromSet_elem_of. tauto.
  - rewrite elem_of_app, arrayFromSet_elem_of, list_elem_of_singleton.
    split.
    + intros [He | ->]; [left|right]; [|done]. split; [|done]. by intros ->.
    + intros [[_ He]|[-> _]]; [by left | by right].
Qed.

Lemma toggleInSet_twice_elem_of x xs e :
  e ∈ toggleInSet x (toggleInSet x xs) ↔ e ∈ xs.
Proof.
  rewrite !toggleInSet_elem_of.
  destruct (decide (e = x)) as [->|Hne]; destruct (decide (x ∈ xs)); tauto.
Qed.

Lemma toggleEpisodeWatched_watched env anime episodeId w :
  watchedEpisodes (listData (toggleEpisodeWatched env anime episodeId w))
  = <[a_id anime :=
        toggleInSet episodeId
          (default [] (watchedEpisodes (listData w) !! a_id anime))]>
      (watchedEpisodes (listData w)).
Proof.
  unfold toggleEpisodeWatched. by rewrite updateAndPersistListData_listData.
Qed.

Lemma toggleChapterRead_read env manga chapterId w :
  readChapters (listData (toggleChapterRead env manga chapterId w))
  = <[a_id manga :=
        {| read := toggleInSet chapterId
                     (default [] (read <$> readChapters (listData w) !! a_id manga));
           lastRead := now env |}]>
      (readChapters (listData w)).
Proof.
  unfold toggleChapterRead. by rewrite updateAndPersistListData_listData.
Qed.

(** The episodes marked watched for a media id, and the chapters marked
    read. *)
Definition watchedOf (id : Z) (w : World) : list string :=
  default [] (watchedEpisodes (listData w) !! id).

Definition readOf (id : Z) (w : World) : list string :=
  default [] (read <$> readChapters (listData w) !! id).

(** Toggling an episode flips the membership of that episode and of no
    other, for that media id and no other; the stored array never holds an
    id twice; toggling again gives the original set back.  The same holds
    for chapters, whose entry also records the time of the toggle. *)
Theorem progress_toggle_flips_one_id
    (env env' : Env) (media : Anime) (unit : string) (w : World) :
  let we := toggleEpisodeWatched env media unit w in
  let wc := toggleChapterRead env media unit w in
  NoDup (watchedOf (a_id media) we)
  ∧ (∀ e, e ∈ watchedOf (a_id media) we
          ↔ (e ≠ unit ∧ e ∈ watchedOf (a_id media) w)
            ∨ (e = unit ∧ unit ∉ watchedOf (a_id media) w))
  ∧ (∀ e, e ∈ watchedOf (a_id media) (toggleEpisodeWatched env' media unit we)
          ↔ e ∈ watchedOf (a_id media) w)
  ∧ (∀ other, other ≠ a_id media →
       watchedEpisodes (listData we) !! other
       = watchedEpisodes (listData w) !! other)
  ∧ NoDup (readOf (a_id media) wc)
  ∧ (∀ e, e ∈ readOf (a_id media) wc
          ↔ (e ≠ unit ∧ e ∈ readOf (a_id media) w)
            ∨ (e = unit ∧ unit ∉ readOf (a_id media) w))
  ∧ (∀ e, e ∈ readOf (a_id media) (toggleChapterRead env' media unit wc)
          ↔ e ∈ readOf (a_id media) w)
  ∧ (lastRead <$> readChapters (listData wc) !! a_id media) = Some (now env)
  ∧ (∀ other, other ≠ a_id media →
       readChapters (listData wc) !! other = readChapters (listData w) !! other).
Proof.
  intros we wc.
  assert (Hwe : watchedOf (a_id media) we
                = toggleInSet unit (watchedOf (a_id media) w)).
  { unfold watchedOf, we. rewrite toggleEpisodeWatched_watched.
    by rewrite lookup_insert_eq. }
  assert (Hwc : readOf (a_id media) wc
                = toggleInSet unit (readOf (a_id media) w)).
  { unfold readOf, wc. rewrite toggleChapterRead_read.
    by rewrite lookup_insert_eq. }
  split_and!.
  - rewrite Hwe. apply toggleInSet_NoDup.
  - intros e. rewrite Hwe. apply toggleInSet_elem_of.
  - intros e. unfold watchedOf at 1.
    rewrite toggleEpisodeWatched_watched, lookup_insert_eq. simpl.
    fold (watchedOf (a_id media) we). rewrite Hwe.
    apply toggleInSet_twice_elem_of.
  - intros other Hne. unfold we. rewrite toggleEpisodeWatched_watched.
    by rewrite lookup_insert_ne.
  - rewrite Hwc. apply toggleInSet_NoDup.
  - intros e. rewrite Hwc. apply toggleInSet_elem_of.
  - intros e. unfold readOf at 1.
    rewrite toggleChapterRead_read, lookup_insert_eq. simpl.
    fold (readOf (a_id media) wc). rewrite Hwc.
    apply toggleInSet_twice_elem_of.
  - unfold wc. rewrite toggleChapterRead_read. by rewrite lookup_insert_eq.
  - intros other Hne. unfold wc. rewrite toggleChapterRead_read.
    by rewrite lookup_insert_ne.
Qed.

(** *** Marking everything watched, and the reminders it silences *)

Lemma episodeIds_length count : length (episodeIds count) = Z.to_nat count.
Proof. unfold episodeIds. by rewrite length_fmap, length_seq. Qed.

Lemma episodeIds_NoDup count : NoDup (episodeIds count).
Proof.
  unfold episodeIds.
  apply NoDup_fmap_2_strong; [|apply NoDup_seq].
  intros i j _ _ Heq. apply (inj pretty) in Heq. lia.
Qed.

Lemma passes_count_suppressed (r : Reminder) (envs : list Env) :
  ∀ w,
    NoDup (r_id <$> reminders (listData w)) →
    r ∈ reminders (listData w) →
    isMediaCompleted (trackedMedia w) (listData w) r = true →
    countFor (r_id r) (notifications (listData (schedulerPasses envs w)))
    = countFor (r_id r) (notifications (listData w)).
Proof.
  induction envs as [|env envs IH]; intros w Hnd Hin Hdone; [done|].
  rewrite schedulerPasses_cons.
  destruct (checkReminders_spec env w) as (_ & Hrs & Hwe & Hrc & Htr).
  pose proof (pass_count env w r Hnd Hin) as Hc.
  rewrite IH.
  - rewrite Hc. unfold schedulerSelects. rewrite Hdone.
    rewrite andb_false_r. lia.
  - by rewrite Hrs.
  - by rewrite Hrs.
  - by rewrite Htr, (isMediaCompleted_ext _ _ _ _ Hwe Hrc).
Qed.

(** Marking all episodes of a finished anime (no next airing episode, [n > 0]
    episodes) as watched stores the ids "1" .. "n", each once.  If the
    tracked record of the anime has the same episode count, every reminder
    on it with [autoStopOnCompletion] is from then on suppressed: no number
    of scheduler passes adds a notification for it.  [unwatchAllEpisodes]
    removes the entry, and the reminder is no longer suppressed. *)
Theorem watchAllEpisodes_silences_reminders
    (env env' : Env) (anime media : Anime) (n : Z) (r : Reminder) (w : World) :
  a_episodes anime = Some n → 0 < n →
  find (λ m, bool_decide (a_id m = a_id anime)) (trackedMedia w) = Some media →
  a_type media ≠ "MANGA" → a_episodes media = Some n →
  r_mediaId r = a_id anime → autoStopOnCompletion r = true →
  r ∈ reminders (listData w) → NoDup (r_id <$> reminders (listData w)) →
  let w' := watchAllEpisodes env anime None w in
  let w'' := unwatchAllEpisodes env' anime w' in
  watchedOf (a_id anime) w' = episodeIds n
  ∧ length (watchedOf (a_id anime) w') = Z.to_nat n
  ∧ NoDup (watchedOf (a_id anime) w')
  ∧ isMediaCompleted (trackedMedia w') (listData w') r = true
  ∧ (∀ envs,
       countFor (r_id r) (notifications (listData (schedulerPasses envs w')))
       = countFor (r_id r) (notifications (listData w)))
  ∧ watchedEpisodes (listData w'') !! a_id anime = None
  ∧ isWatchedId (listData w'') (a_id anime) = false
  ∧ isMediaCompleted (trackedMedia w'') (listData w'') r = false.
Proof.
  intros Hep Hn Hfind Htype Hmedia Hrm Hauto Hin Hnd w' w''.
  assert (Hw' : w' = updateAndPersistListData env
                       (λ d, onlyWatchedEpisodes
                               (<[a_id anime := episodeIds n]> (watchedEpisodes d)))
                       w).
  { unfold w', watchAllEpisodes. rewrite Hep.
    rewrite !bool_decide_eq_false_2 by lia. done. }
  assert (Hwatched : watchedOf (a_id anime) w' = episodeIds n).
  { unfold watchedOf. rewrite Hw', updateAndPersistListData_listData. simpl.
    by rewrite lookup_insert_eq. }
  assert (Htr : trackedMedia w' = trackedMedia w).
  { rewrite Hw'. apply updateAndPersistListData_tracked. }
  assert (Hrs : reminders (listData w') = reminders (listData w)
                ∧ notifications (listData w') = notifications (listData w)).
  { by rewrite Hw', updateAndPersistListData_listData. }
  destruct Hrs as [Hrs Hns].
  assert (Hdone : isMediaCompleted (trackedMedia w') (listData w') r = true).
  { unfold isMediaCompleted. rewrite Hauto, Htr, Hrm, Hfind. simpl.
    rewrite (bool_decide_eq_false_2 (a_type media = "MANGA")) by done.
    rewrite Hmedia. rewrite bool_decide_eq_false_2 by lia.
    apply bool_decide_eq_true.
    fold (watchedOf (a_id media) w').
    apply find_some in Hfind as [_ Hid%bool_decide_eq_true]. rewrite Hid.
    unfold watchedOf in Hwatched.
    destruct (watchedEpisodes (listData w') !! a_id anime) as [eps|] eqn:Hl;
      simpl in *.
    - subst eps. rewrite episodeIds_length. lia.
    - assert (length (episodeIds n) = 0%nat) as Hlen by (by rewrite <- Hwatched).
      rewrite episodeIds_length in Hlen. lia. }
  assert (Hgone : watchedEpisodes (listData w'') !! a_id anime = None).
  { unfold w'', unwatchAllEpisodes. rewrite updateAndPersistListData_listData.
    simpl. apply lookup_delete_eq. }
  split_and!.
  - done.
  - by rewrite Hwatched, episodeIds_length.
  - rewrite Hwatched. apply episodeIds_NoDup.
  - done.
  - intros envs. rewrite passes_count_suppressed; rewrite ?Hrs, ?Hns; done.
  - done.
  - unfold isWatchedId. by rewrite Hgone.
  - unfold isMediaCompleted. rewrite Hauto.
    unfold w'', unwatchAllEpisodes.
    rewrite (proj2 (updateAndPersistListData_tracked _ _ _)), Htr, Hrm, Hfind.
    simpl. rewrite (bool_decide_eq_false_2 (a_type media = "MANGA")) by done.
    rewrite Hmedia. rewrite bool_decide_eq_false_2 by lia.
    apply bool_decide_eq_false.
    apply find_some in Hfind as [_ Hid%bool_decide_eq_true]. rewrite Hid.
    fold (unwatchAllEpisodes env' anime w'). fold w''. rewrite Hgone. simpl.
    lia.
Qed.

(** A finished one-episode anime, tracked, with a reminder that stops on
    completion. *)
Definition shortAnime : Anime :=
  {| a_id := 1; a_type := "ANIME"; a_title := "Title"; a_episodes := Some 1;
     a_chapters := None; a_volumes := None; a_synopsis := None |}.

Lemma watchAllEpisodes_silences_reminders_witness :
  let w' :=
    watchAllEpisodes saturdayNoon shortAnime None
      (reminderWorld oneShotAutoStop []) in
  watchedOf 1 w' = ["1"]
  ∧ countFor (r_id oneShotAutoStop)
      (notifications (listData (schedulerPasses threePasses w'))) = 0%nat.
Proof.
  pose proof (watchAllEpisodes_silences_reminders saturdayNoon saturdayNoon
                shortAnime shortAnime 1 oneShotAutoStop
                (reminderWorld oneShotAutoStop [])
                eq_refl ltac:(done) eq_refl ltac:(done) eq_refl eq_refl eq_refl)
    as H.
  destruct H as (H1 & _ & _ & _ & H2 & _).
  - apply elem_of_cons. by left.
  - apply NoDup_singleton.
  - split; [exact H1 | exact (H2 threePasses)].
Defined.

(** *** Removing an item from a list page *)

(** The list a page name stands for in [removeItemFromList]. *)
Definition pageList (listName : string) : option ListName :=
  if bool_decide (listName = "watching") then Some CurrentlyWatching
  else if bool_decide (listName = "plan-to-watch") then Some PlanToWatch
  else if bool_decide (listName = "reading") then Some CurrentlyReading
  else if bool_decide (listName = "plan-to-read") then Some PlanToRead
  else None.

(** [removeItemFromList] filters the id out of the list its page name stands
    for and leaves the three other lists alone; on the pages "completed" and
    "read" it drops the media's progress entry; for any other name, the
    property names of [ListData] included, it does nothing at all.  It never
    touches the tracked-media cache, in the React state or in the store, so
    the record of an id removed from its last list stays tracked. *)
Theorem removeItemFromList_spec
    (env : Env) (itemId : Z) (listName : string) (w : World) :
  let w' := removeItemFromList env itemId listName w in
  trackedMedia w' = trackedMedia w
  ∧ idb_tracked w' = idb_tracked w
  ∧ match pageList listName with
    | Some name =>
        getList name (listData w')
        = filter (λ id, id ≠ itemId) (getList name (listData w))
        ∧ (itemId ∉ getList name (listData w'))
        ∧ (∀ other, other ≠ name →
             getList other (listData w') = getList other (listData w))
        ∧ idb_listData w' ≠ None
    | None =>
        if bool_decide (listName = "completed") then
          watchedEpisodes (listData w')
          = delete itemId (watchedEpisodes (listData w))
        else if bool_decide (listName = "read") then
          readChapters (listData w') = delete itemId (readChapters (listData w))
        else w' = w
    end.
Proof.
  intros w'. subst w'. unfold removeItemFromList, pageList.
  unfold unwatchAllEpisodes, unmarkAllChaptersRead.
  repeat case_bool_decide; subst; try discriminate;
    rewrite ?updateAndPersistListData_listData,
      ?updateAndPersistListData_idb_listData,
      ?(proj1 (updateAndPersistListData_tracked _ _ _)),
      ?(proj2 (updateAndPersistListData_tracked _ _ _));
    split_and!; try done;
    try apply not_elem_of_filter_ne;
    try (intros other Hne; by rewrite getList_spread_onlyList_ne).
Qed.

(** *** Deleting a reminder *)

Lemma passes_count_absent (rid : Ident) (envs : list Env) :
  ∀ w,
    rid ∉ r_id <$> reminders (listData w) →
    countFor rid (notifications (listData (schedulerPasses envs w)))
    = countFor rid (notifications (listData w)).
Proof.
  induction envs as [|env envs IH]; intros w Hnone; [done|].
  rewrite schedulerPasses_cons.
  destruct (checkReminders_spec env w) as (Hns & Hrs & _).
  rewrite IH by (by rewrite Hrs).
  rewrite Hns, countFor_app, newNotificationsOf_count.
  assert (filter
            (λ r, r_id r = rid
                  ∧ schedulerSelects env
                      (existingReminderNotifications (notifications (listData w)))
                      (trackedMedia w) (listData w) r = true)
            (reminders (listData w)) = []) as ->; [|simpl; lia].
  apply elem_of_nil_inv. intros r [[Hid _] Hr]%list_elem_of_filter.
  apply Hnone. rewrite <- Hid. by apply list_elem_of_fmap_2.
Qed.

Lemma countFor_filter_ne rid id ns :
  countFor rid (filter (λ n, reminderIdOf n ≠ Some id) ns)
  = if decide (rid = id) then 0%nat else countFor rid ns.
Proof.
  unfold countFor. induction ns as [|n ns IH]; [by case_decide|].
  destruct (decide (reminderIdOf n = Some id)) as [Hn|Hn].
  - rewrite (filter_cons_False (λ n, reminderIdOf n ≠ Some id)) by tauto.
    rewrite IH. case_decide as Hrid; [done|].
    rewrite filter_cons_False; [done|]. rewrite Hn. congruence.
  - rewrite (filter_cons_True (λ n, reminderIdOf n ≠ Some id)) by done.
    destruct (decide (reminderIdOf n = Some rid)) as [Hr|Hr].
    + rewrite !filter_cons_True by done. simpl. rewrite IH.
      case_decide as Hrid; [|done]. subst. done.
    + rewrite !filter_cons_False by done. apply IH.
Qed.

(** [deleteReminder(id)] removes every reminder with that id and every
    notification that references it, and nothing else: the other reminders
    and all other notifications (news, storage, other reminders') stay, in
    order.  Afterwards no number of scheduler passes creates a notification
    for the id again. *)
Theorem deleteReminder_spec (env : Env) (id : Ident) (w : World) :
  let w' := deleteReminder env id w in
  reminders (listData w') = filter (λ r, r_id r ≠ id) (reminders (listData w))
  ∧ notifications (listData w')
    = filter (λ n, reminderIdOf n ≠ Some id) (notifications (listData w))
  ∧ (id ∉ r_id <$> reminders (listData w'))
  ∧ reminderNotificationsFor id (listData w') = []
  ∧ (∀ rid, rid ≠ id →
       countFor rid (notifications (listData w'))
       = countFor rid (notifications (listData w)))
  ∧ (∀ envs,
       reminderNotificationsFor id (listData (schedulerPasses envs w')) = []).
Proof.
  intros w'.
  assert (Hrs : reminders (listData w')
                = filter (λ r, r_id r ≠ id) (reminders (listData w))).
  { unfold w', deleteReminder. by rewrite updateAndPersistListData_listData. }
  assert (Hns : notifications (listData w')
                = filter (λ n, reminderIdOf n ≠ Some id)
                         (notifications (listData w))).
  { unfold w', deleteReminder. by rewrite updateAndPersistListData_listData. }
  assert (Hnone : id ∉ r_id <$> reminders (listData w')).
  { rewrite Hrs. intros (r & Hid & Hr%list_elem_of_filter)%list_elem_of_fmap.
    destruct Hr as [Hne _]. by apply Hne. }
  assert (Hzero : countFor id (notifications (listData w')) = 0%nat).
  { rewrite Hns, countFor_filter_ne. by case_decide. }
  split_and!; try done.
  - apply length_zero_iff_nil. exact Hzero.
  - intros rid Hne. rewrite Hns, countFor_filter_ne. by case_decide.
  - intros envs. apply length_zero_iff_nil.
    pose proof (passes_count_absent id envs w' Hnone) as Hc.
    unfold countFor in Hc, Hzero. unfold reminderNotificationsFor.
    by rewrite Hc.
Qed.

(** ** Catalogue updates for tracked media *)

(** [new Map(list.map(m => [m.id, m])).get(id)]: of two records with the same
    id the later one is kept. *)
Fixpoint mapGet (id : Z) (l : list Anime) : option Anime :=
  match l with
  | [] => None
  | m :: rest =>
      match mapGet id rest with
      | Some later => Some later
      | None => if bool_decide (a_id m = id) then Some m else None
      end
  end.

(** [Array.from(new Set(ids))] for media ids. *)
Fixpoint idSet (ids : list Z) : list Z :=
  match ids with
  | [] => []
  | x :: rest => x :: filter (λ y, y ≠ x) (idSet rest)
  end.

(** [type === 'MANGA' || type === 'NOVEL' || type === 'ONE_SHOT'] *)
Definition isMangaType (media : Anime) : bool :=
  bool_decide (a_type media = "MANGA") || bool_decide (a_type media = "NOVEL")
  || bool_decide (a_type media = "ONE_SHOT").

(** The [news] notification [addInteraction] builds.  [large_image_url]
    reads [media.images.webp.large_image_url], a field outside [Anime]. *)
Definition newsNotification (large_image_url : Anime → option string)
    (env : Env) (id : Ident) (media : Anime) (diff : Z) : UserNotification :=
  let isManga := isMangaType media in
  let message :=
    if isManga then pretty diff +:+ " new chapters available"
    else pretty diff +:+ " new episodes available" in
  {| n_id := id;
     n_type := news (a_id media) isManga (default "" (large_image_url media));
     n_title := a_title media; n_message := message;
     n_timestamp := now env; n_seen := false |}.

(** [addInteraction(media, diff)] *)
Definition addInteraction (large_image_url : Anime → option string)
    (env : Env) (media : Anime) (diff : Z) (w : World) : World :=
  let '(id, w1) := uuidv4 w in
  updateAndPersistListData env
    (appendNotifications [newsNotification large_image_url env id media diff])
    w1.

(** [newVal != null && (oldVal == null || newVal > oldVal)] *)
Definition hasNewUnits (oldVal newVal : option Z) : bool :=
  match newVal, oldVal with
  | None, _ => false
  | Some _, None => true
  | Some n, Some o => bool_decide (n > o)
  end.

(** The body of [for (const mediaId of mediaToWatchIds)]; the accumulator
    is the world and the object [newUpdates], whose values are the pairs
    [(newEpisodes, newChapters)]. *)
Definition checkOneMedia (large_image_url : Anime → option string) (env : Env)
    (latestMediaData currentTracked : list Anime)
    (acc : World * gmap Z (Z * Z)) (mediaId : Z) : World * gmap Z (Z * Z) :=
  let '(w, newUpdates) := acc in
  match mapGet mediaId currentTracked, mapGet mediaId latestMediaData with
  | Some currentMedia, Some latestMedia =>
      let isManga := isMangaType latestMedia in
      let oldVal :=
        if isManga then a_chapters currentMedia else a_episodes currentMedia in
      let newVal :=
        if isManga then a_chapters latestMedia else a_episodes latestMedia in
      if hasNewUnits oldVal newVal then
        let diff := default 0 newVal - default 0 oldVal in
        (addInteraction large_image_url env latestMedia diff w,
         <[mediaId := (if isManga then 0 else diff, if isManga then diff else 0)]>
           newUpdates)
      else acc
  | _, _ => acc
  end.

(** [trackedMedia.map(m => latestMediaMap.get(m.id) || m)] *)
Definition refreshTracked (latestMediaData tracked : list Anime) : list Anime :=
  (λ m, default m (mapGet (a_id m) latestMediaData)) <$> tracked.

(** [checkForUpdates()].  [latestMediaData] is what the catalogue returns
    for the ids asked (empty or partial when it fails soft); [updates] is
    the React state of that name, returned with the world. *)
Definition checkForUpdates (large_image_url : Anime → option string) (env : Env)
    (latestMediaData : list Anime) (updates : gmap Z (Z * Z)) (w : World)
  : World * gmap Z (Z * Z) :=
  let mediaToWatchIds :=
    idSet (currentlyWatching (listData w) ++ currentlyReading (listData w)) in
  if bool_decide (length mediaToWatchIds = 0%nat) then (w, updates)
  else
    let '(w1, newUpdates) :=
      foldl (checkOneMedia large_image_url env latestMediaData (trackedMedia w))
            (w, ∅) mediaToWatchIds in
    let updates' :=
      if bool_decide (0 < size newUpdates)%nat then newUpdates ∪ updates
      else updates in
    let updatedTracked := refreshTracked latestMediaData (trackedMedia w) in
    (set_IDB_TRACKED_MEDIA_KEY updatedTracked (setTrackedMedia updatedTracked w1),
     updates').

Lemma mapGet_Some id l m : mapGet id l = Some m → a_id m = id ∧ m ∈ l.
Proof.
  induction l as [|x l IH]; simpl; [done|].
  destruct (mapGet id l) as [later|].
  - intros [= <-]. destruct IH as [? ?]; [done|].
    split; [done|]. apply elem_of_cons. by right.
  - case_bool_decide; [|done]. intros [= <-].
    split; [done|]. apply elem_of_cons. by left.
Qed.

Lemma mapGet_fmap (f : Anime → Anime) id l :
  (∀ m, a_id (f m) = a_id m) →
  mapGet id (f <$> l) = f <$> mapGet id l.
Proof.
  intros Hf. induction l as [|x l IH]; [done|].
  rewrite fmap_cons. simpl. rewrite IH, Hf.
  destruct (mapGet id l); [done|]. by case_bool_decide.
Qed.

Lemma refresh_id latestMediaData m :
  a_id (default m (mapGet (a_id m) latestMediaData)) = a_id m.
Proof.
  destruct (mapGet (a_id m) latestMediaData) as [l|] eqn:Hl; [|done].
  by apply mapGet_Some in Hl as [? _].
Qed.

Lemma refreshTracked_ids latestMediaData tracked :
  trackedIds (refreshTracked latestMediaData tracked) = trackedIds tracked.
Proof.
  unfold trackedIds, refreshTracked. rewrite <- list_fmap_compose.
  apply list_fmap_ext. intros i m _. apply refresh_id.
Qed.

Lemma refreshTracked_idemp latestMediaData tracked :
  refreshTracked latestMediaData (refreshTracked latestMediaData tracked)
  = refreshTracked latestMediaData tracked.
Proof.
  unfold refreshTracked. rewrite <- list_fmap_compose.
  apply list_fmap_ext. intros i m _. simpl.
  destruct (mapGet (a_id m) latestMediaData) as [l|] eqn:Hl; simpl.
  - pose proof (mapGet_Some _ _ _ Hl) as [Hid _]. by rewrite Hid, Hl.
  - by rewrite Hl.
Qed.

Lemma idSet_elem_of x ids : x ∈ idSet ids ↔ x ∈ ids.
Proof.
  induction ids as [|y ids IH]; simpl; [done|].
  rewrite !elem_of_cons, list_elem_of_filter, IH.
  destruct (decide (x = y)); tauto.
Qed.

Lemma idSet_NoDup ids : NoDup (idSet ids).
Proof.
  induction ids as [|y ids IH]; simpl; [constructor|].
  apply NoDup_cons. split; [|by apply NoDup_filter].
  rewrite list_elem_of_filter. tauto.
Qed.

(** The episode or chapter count the comparison reads from a record, chosen
    by the type of the catalogue's record. *)
Definition unitsOf (latestMedia media : Anime) : option Z :=
  if isMangaType latestMedia then a_chapters media else a_episodes media.

(** For one id: the catalogue record and the difference [addInteraction]
    receives, when the loop decides there is new content. *)
Definition increased (latestMediaData currentTracked : list Anime) (mediaId : Z)
  : option (Anime * Z) :=
  match mapGet mediaId currentTracked, mapGet mediaId latestMediaData with
  | Some currentMedia, Some latestMedia =>
      if hasNewUnits (unitsOf latestMedia currentMedia)
                     (unitsOf latestMedia latestMedia)
      then Some (latestMedia,
                 default 0 (unitsOf latestMedia latestMedia)
                 - default 0 (unitsOf latestMedia currentMedia))
      else None
  | _, _ => None
  end.

(** The notifications of successive [addInteraction] calls. *)
Fixpoint newsFrom (large_image_url : Anime → option string) (env : Env)
    (uuid : nat) (items : list (Anime * Z)) : list UserNotification :=
  match items with
  | [] => []
  | (media, diff) :: rest =>
      newsNotification large_image_url env (Uuid uuid) media diff
      :: newsFrom large_image_url env (S uuid) rest
  end.

Lemma updateAndPersistListData_nextUuid env getNewData w :
  nextUuid (updateAndPersistListData env getNewData w) = nextUuid w.
Proof.
  unfold updateAndPersistListData, checkStorageAndNotify.
  destruct (storageEstimate env); [|done]. by case_bool_decide.
Qed.

Lemma withNotifications_same d : withNotifications d (notifications d) = d.
Proof. by destruct d. Qed.

Lemma addInteraction_spec large_image_url env media diff w :
  let w' := addInteraction large_image_url env media diff w in
  listData w'
  = withNotifications (listData w)
      (notifications (listData w)
       ++ [newsNotification large_image_url env (Uuid (nextUuid w)) media diff])
  ∧ trackedMedia w' = trackedMedia w
  ∧ idb_tracked w' = idb_tracked w
  ∧ nextUuid w' = S (nextUuid w).
Proof.
  intros w'. subst w'. unfold addInteraction. simpl.
  rewrite updateAndPersistListData_listData,
    updateAndPersistListData_nextUuid,
    (proj1 (updateAndPersistListData_tracked _ _ _)),
    (proj2 (updateAndPersistListData_tracked _ _ _)).
  done.
Qed.

Lemma checkOneMedia_increased large_image_url env latest current w nu id :
  checkOneMedia large_image_url env latest current (w, nu) id
  = match increased latest current id with
    | Some (latestMedia, diff) =>
        (addInteraction large_image_url env latestMedia diff w,
         <[id := (if isMangaType latestMedia then 0 else diff,
                  if isMangaType latestMedia then diff else 0)]> nu)
    | None => (w, nu)
    end.
Proof.
  unfold checkOneMedia, increased, unitsOf.
  destruct (mapGet id current) as [c|]; [|done].
  destruct (mapGet id latest) as [l|]; [|done].
  by destruct (hasNewUnits _ _).
Qed.

Lemma foldl_checkOneMedia large_image_url env latest current ids :
  ∀ w nu,
    let res :=
      foldl (checkOneMedia large_image_url env latest current) (w, nu) ids in
    listData res.1
    = withNotifications (listData w)
        (notifications (listData w)
         ++ newsFrom large_image_url env (nextUuid w)
              (omap (increased latest current) ids))
    ∧ trackedMedia res.1 = trackedMedia w
    ∧ idb_tracked res.1 = idb_tracked w.
Proof.
  induction ids as [|id ids IH]; intros w nu; cbn [foldl].
  - simpl. by rewrite app_nil_r, withNotifications_same.
  - rewrite checkOneMedia_increased.
    destruct (increased latest current id) as [[l d]|] eqn:Hinc.
    + destruct (addInteraction_spec large_image_url env l d w)
        as (Hl & Ht & Hi & Hu).
      specialize (IH (addInteraction large_image_url env l d w)
                     (<[id := (if isMangaType l then 0 else d,
                               if isMangaType l then d else 0)]> nu)).
      cbv zeta in IH. destruct IH as (IH1 & IH2 & IH3).
      simpl. rewrite Hinc. rewrite IH1, IH2, IH3, Hl, Ht, Hi, Hu. simpl.
      split_and!; try done. by rewrite <- app_assoc.
    + simpl. rewrite Hinc. apply IH.
Qed.

Lemma foldl_checkOneMedia_none large_image_url env latest current ids :
  ∀ w nu,
    (∀ id, id ∈ ids → increased latest current id = None) →
    foldl (checkOneMedia large_image_url env latest current) (w, nu) ids
    = (w, nu).
Proof.
  induction ids as [|id ids IH]; intros w nu Hnone; [done|]. cbn [foldl].
  rewrite checkOneMedia_increased, Hnone by (apply elem_of_cons; by left).
  apply IH. intros id' Hid'. apply Hnone. apply elem_of_cons. by right.
Qed.

Lemma hasNewUnits_same x : hasNewUnits x x = false.
Proof. destruct x; simpl; [|done]. apply bool_decide_eq_false. lia. Qed.

Lemma increased_Some latest current id media diff :
  increased latest current id = Some (media, diff) →
  a_id media = id
  ∧ ∃ currentMedia,
      mapGet id current = Some currentMedia
      ∧ mapGet id latest = Some media
      ∧ hasNewUnits (unitsOf media currentMedia) (unitsOf media media) = true
      ∧ diff = default 0 (unitsOf media media)
               - default 0 (unitsOf media currentMedia).
Proof.
  unfold increased.
  destruct (mapGet id current) as [c|] eqn:Hc; [|done].
  destruct (mapGet id latest) as [l|] eqn:Hl; [|done].
  destruct (hasNewUnits _ _) eqn:Hnew; [|done].
  intros [= <- <-]. split; [by apply mapGet_Some in Hl as [? _]|].
  by exists c.
Qed.

Lemma increased_refreshed latest tracked id :
  increased latest (refreshTracked latest tracked) id = None.
Proof.
  unfold increased, refreshTracked.
  rewrite mapGet_fmap by (intros m; apply refresh_id).
  destruct (mapGet id tracked) as [c|] eqn:Hc; [|done]. simpl.
  apply mapGet_Some in Hc as [Hid _]. rewrite Hid.
  destruct (mapGet id latest) as [l|] eqn:Hl; [|done]. simpl.
  by rewrite hasNewUnits_same.
Qed.

Lemma omap_cons_increased latest current id (ids : list Z) :
  omap (increased latest current) (id :: ids)
  = match increased latest current id with
    | Some item => item :: omap (increased latest current) ids
    | None => omap (increased latest current) ids
    end.
Proof. done. Qed.

Lemma created_ids latest current (ids : list Z) :
  (a_id ∘ fst) <$> omap (increased latest current) ids
  = filter (λ id, is_Some (increased latest current id)) ids.
Proof.
  induction ids as [|id ids IH]; [done|].
  rewrite omap_cons_increased.
  destruct (increased latest current id) as [[l d]|] eqn:Hinc.
  - rewrite filter_cons_True by (by rewrite Hinc).
    rewrite fmap_cons, IH. simpl.
    by apply increased_Some in Hinc as [-> _].
  - rewrite filter_cons_False; [done|]. rewrite Hinc. by intros [? ?].
Qed.

Lemma checkForUpdates_nonempty large_image_url env latest updates w :
  idSet (currentlyWatching (listData w) ++ currentlyReading (listData w)) ≠ [] →
  let ids :=
    idSet (currentlyWatching (listData w) ++ currentlyReading (listData w)) in
  let res :=
    foldl (checkOneMedia large_image_url env latest (trackedMedia w))
          (w, ∅) ids in
  let updatedTracked := refreshTracked latest (trackedMedia w) in
  checkForUpdates large_image_url env latest updates w
  = (set_IDB_TRACKED_MEDIA_KEY updatedTracked
       (setTrackedMedia updatedTracked res.1),
     if bool_decide (0 < size res.2)%nat then res.2 ∪ updates else updates).
Proof.
  intros Hne ids res updatedTracked. unfold checkForUpdates.
  rewrite bool_decide_eq_false_2.
  - fold ids. fold res. by destruct res.
  - intros Hlen. by apply length_zero_iff_nil in Hlen.
Qed.

(** One run of [checkForUpdates].  Without anything currently watched or
    read it changes nothing.  Otherwise it appends one [news] notification
    for each distinct currently watched or read id that is tracked, that the
    catalogue returned, and whose catalogue count is defined and strictly
    greater than the cached one (or the cached one is undefined), and for no
    other media; it replaces each tracked record the catalogue returned by
    the catalogue's and writes the cache to the store.  The ids of the
    tracked media, and everything in the list data but the notifications,
    stay as they were. *)
Theorem checkForUpdates_spec
    (large_image_url : Anime → option string) (env : Env)
    (latestMediaData : list Anime) (updates : gmap Z (Z * Z)) (w : World) :
  let ids :=
    idSet (currentlyWatching (listData w) ++ currentlyReading (listData w)) in
  let w' := (checkForUpdates large_image_url env latestMediaData updates w).1 in
  let created := omap (increased latestMediaData (trackedMedia w)) ids in
  listData w'
  = withNotifications (listData w)
      (notifications (listData w)
       ++ newsFrom large_image_url env (nextUuid w) created)
  ∧ trackedIds (trackedMedia w') = trackedIds (trackedMedia w)
  ∧ (ids ≠ [] →
       trackedMedia w' = refreshTracked latestMediaData (trackedMedia w)
       ∧ idb_tracked w' = Some (trackedMedia w'))
  ∧ (ids = [] →
       checkForUpdates large_image_url env latestMediaData updates w
       = (w, updates))
  ∧ NoDup ((a_id ∘ fst) <$> created)
  ∧ (∀ media diff, (media, diff) ∈ created →
       a_id media ∈ currentlyWatching (listData w) ++ currentlyReading (listData w)
       ∧ ∃ currentMedia,
           mapGet (a_id media) (trackedMedia w) = Some currentMedia
           ∧ mapGet (a_id media) latestMediaData = Some media
           ∧ hasNewUnits (unitsOf media currentMedia) (unitsOf media media) = true
           ∧ diff = default 0 (unitsOf media media)
                    - default 0 (unitsOf media currentMedia)).
Proof.
  intros ids w' created.
  assert (Hcreated : ∀ media diff, (media, diff) ∈ created →
            a_id media ∈ currentlyWatching (listData w)
                         ++ currentlyReading (listData w)
            ∧ ∃ currentMedia,
                mapGet (a_id media) (trackedMedia w) = Some currentMedia
                ∧ mapGet (a_id media) latestMediaData = Some media
                ∧ hasNewUnits (unitsOf media currentMedia)
                              (unitsOf media media) = true
                ∧ diff = default 0 (unitsOf media media)
                         - default 0 (unitsOf media currentMedia)).
  { intros media diff (id & Hid & Hinc)%list_elem_of_omap.
    apply increased_Some in Hinc as [<- Hrest].
    split; [|done]. by apply idSet_elem_of. }
  assert (Hnd : NoDup ((a_id ∘ fst) <$> created)).
  { unfold created. rewrite created_ids. apply NoDup_filter, idSet_NoDup. }
  assert (Hempty : ids = [] →
            checkForUpdates large_image_url env latestMediaData updates w
            = (w, updates)).
  { intros Hnil. unfold checkForUpdates. fold ids. by rewrite Hnil. }
  assert (Hfull : ids ≠ [] →
            listData w'
            = withNotifications (listData w)
                (notifications (listData w)
                 ++ newsFrom large_image_url env (nextUuid w) created)
            ∧ trackedMedia w' = refreshTracked latestMediaData (trackedMedia w)
            ∧ idb_tracked w' = Some (trackedMedia w')).
  { intros Hne. unfold w'. rewrite checkForUpdates_nonempty by done.
    cbv zeta.
    destruct (foldl_checkOneMedia large_image_url env latestMediaData
                (trackedMedia w) ids w ∅) as (Hl & _ & _).
    split_and!; [exact Hl | reflexivity | reflexivity]. }
  split_and!; try done.
  - destruct (decide (ids = [])) as [Hnil|Hne]; [|by apply Hfull].
    unfold w', created. rewrite (Hempty Hnil), Hnil. simpl.
    by rewrite app_nil_r, withNotifications_same.
  - destruct (decide (ids = [])) as [Hnil|Hne].
    + unfold w'. by rewrite (Hempty Hnil).
    + destruct (Hfull Hne) as (_ & -> & _). apply refreshTracked_ids.
  - intros Hne. by destruct (Hfull Hne) as (_ & ? & ?).
Qed.

(** Running [checkForUpdates] again with the same catalogue answer changes
    nothing: no second notification for content already announced, the
    tracked cache and the [updates] state stay as the first run left them. *)
Theorem checkForUpdates_twice
    (large_image_url : Anime → option string) (env env' : Env)
    (latestMediaData : list Anime) (updates : gmap Z (Z * Z)) (w : World) :
  let first := checkForUpdates large_image_url env latestMediaData updates w in
  checkForUpdates large_image_url env' latestMediaData first.2 first.1 = first.
Proof.
  intros first.
  set (ids := idSet (currentlyWatching (listData w)
                     ++ currentlyReading (listData w))).
  destruct (decide (ids = [])) as [Hnil|Hne].
  - assert (Hsame : first = (w, updates)).
    { unfold first, checkForUpdates. fold ids. by rewrite Hnil. }
    rewrite Hsame. simpl. unfold checkForUpdates. fold ids. by rewrite Hnil.
  - assert (Hfirst := checkForUpdates_nonempty large_image_url env
                        latestMediaData updates w Hne).
    cbv zeta in Hfirst. fold ids in Hfirst. fold first in Hfirst.
    destruct (foldl_checkOneMedia large_image_url env latestMediaData
                (trackedMedia w) ids w ∅) as (Hl & _ & _).
    set (res := foldl (checkOneMedia large_image_url env latestMediaData
                         (trackedMedia w)) (w, ∅) ids) in *.
    assert (Hids : idSet (currentlyWatching (listData first.1)
                          ++ currentlyReading (listData first.1)) = ids).
    { rewrite Hfirst. simpl. by rewrite Hl. }
    assert (Htr : trackedMedia first.1
                  = refreshTracked latestMediaData (trackedMedia w)).
    { by rewrite Hfirst. }
    rewrite checkForUpdates_nonempty by (by rewrite Hids).
    cbv zeta. rewrite Hids, Htr.
    rewrite foldl_checkOneMedia_none
      by (intros id _; apply increased_refreshed).
    simpl. rewrite refreshTracked_idemp.
    rewrite bool_decide_eq_false_2 by (rewrite map_size_empty; lia).
    rewrite Hfirst. done.
Qed.

(** ** The key-value store and the image cache *)

(** What the store holds under a key: an image-cache entry
    ([CachedImage]: [{ dataUrl, timestamp }]) or any other value. *)
Inductive Stored :=
  | CachedImage (dataUrl : string) (timestamp : Z)
  | OtherValue (value : Json).

(** The store of [lib/idb-keyval]: one object store, keys to values. *)
Module IdbKeyval.

Definition get (key : string) (store : gmap string Stored) : option Stored :=
  store !! key.

Definition set (key : string) (value : Stored) (store : gmap string Stored)
  : gmap string Stored :=
  <[key := value]> store.

Definition del (key : string) (store : gmap string Stored)
  : gmap string Stored :=
  delete key store.

Definition clear (store : gmap string Stored) : gmap string Stored := ∅.

Definition keys (store : gmap string Stored) : list string :=
  (map_to_list store).*1.

End IdbKeyval.

Definition IDB_PROFILE_KEY : string := "animesync_local_profile".
Definition IDB_LIST_DATA_KEY : string := "animesync_local_list_data".
Definition IDB_LAYOUT_CONFIG_KEY : string := "animesync_layout_config".
Definition IDB_TRACKED_MEDIA_KEY : string := "animesync_tracked_media".
Definition IDB_SHARED_DATA_KEY : string := "animesync_shared_data_config".

Definition CACHE_EXPIRATION_MS : Z := 24 * 60 * 60 * 1000.

(** [`img-${url}`] *)
Definition cacheKey (url : string) : string := "img-" +:+ url.

(** [cachedItem && (now - cachedItem.timestamp < CACHE_EXPIRATION_MS)]; a
    value without a [timestamp] makes the comparison false. *)
Definition isFresh (now : Z) (cachedItem : option Stored) : bool :=
  match cachedItem with
  | Some (CachedImage _ timestamp) =>
      bool_decide (now - timestamp < CACHE_EXPIRATION_MS)
  | _ => false
  end.

(** [item && (now - item.timestamp > CACHE_EXPIRATION_MS)] *)
Definition isExpired (now : Z) (item : option Stored) : bool :=
  match item with
  | Some (CachedImage _ timestamp) =>
      bool_decide (now - timestamp > CACHE_EXPIRATION_MS)
  | _ => false
  end.

(** What a [getImage] call yields: the value returned, the store afterwards,
    and whether the image was fetched from the network. *)
Record ImageResult := {
  returned : option string;
  storeAfter : gmap string Stored;
  fetched : bool;
}.

(** [cachedItem.dataUrl] *)
Definition dataUrlOf (cachedItem : option Stored) : option string :=
  match cachedItem with
  | Some (CachedImage dataUrl _) => Some dataUrl
  | _ => None
  end.

(** [getImage(url)].  [fetchOutcome] is how [imageToDataUrl(url)] settles if
    it is called: the data URL, or [None] when it throws. *)
Definition getImage (cacheReady : bool) (now : Z) (fetchOutcome : option string)
    (url : string) (store : gmap string Stored) : ImageResult :=
  if negb cacheReady || bool_decide (url = "") then
    {| returned := None; storeAfter := store; fetched := false |}
  else
    let cachedItem := IdbKeyval.get (cacheKey url) store in
    if isFresh now cachedItem then
      {| returned := dataUrlOf cachedItem; storeAfter := store;
         fetched := false |}
    else
      match fetchOutcome with
      | Some dataUrl =>
          let newItem := CachedImage dataUrl now in
          {| returned := Some dataUrl;
             storeAfter := IdbKeyval.set (cacheKey url) newItem store;
             fetched := true |}
      | None =>
          {| returned := Some url; storeAfter := store; fetched := true |}
      end.

(** One round of the loop of [cleanupExpiredCache]. *)
Definition cleanupKey (now : Z) (store : gmap string Stored) (key : string)
  : gmap string Stored :=
  if String.prefix "img-" key then
    let item := IdbKeyval.get key store in
    if isExpired now item then IdbKeyval.del key store else store
  else store.

(** [cleanupExpiredCache()]: the keys are listed once, then visited. *)
Definition cleanupExpiredCache (now : Z) (store : gmap string Stored)
  : gmap string Stored :=
  let allKeys := IdbKeyval.keys store in
  foldl (cleanupKey now) store allKeys.

Lemma cacheKey_prefix url : String.prefix "img-" (cacheKey url) = true.
Proof. by destruct url. Qed.

(** The loop over any list of keys: a key is gone afterwards exactly when it
    was visited, starts with ["img-"] and held an expired entry. *)
Lemma foldl_cleanupKey now (allKeys : list string) :
  ∀ store key,
    foldl (cleanupKey now) store allKeys !! key
    = if bool_decide (key ∈ allKeys) && String.prefix "img-" key
         && isExpired now (store !! key)
      then None else store !! key.
Proof.
  induction allKeys as [|k ks IH]; intros store key; [done|].
  cbn [foldl]. rewrite IH.
  assert (Hstep : cleanupKey now store k !! key
                  = if bool_decide (key = k) && String.prefix "img-" key
                       && isExpired now (store !! key)
                    then None else store !! key).
  { unfold cleanupKey, IdbKeyval.get, IdbKeyval.del.
    destruct (decide (key = k)) as [->|Hne].
    - rewrite bool_decide_eq_true_2 by done. simpl.
      destruct (String.prefix "img-" k); [|done]. simpl.
      destruct (isExpired now (store !! k)); [|done].
      apply lookup_delete_eq.
    - rewrite bool_decide_eq_false_2 by done. simpl.
      destruct (String.prefix "img-" k); [|done].
      destruct (isExpired now (store !! k)); [|done].
      by apply lookup_delete_ne. }
  rewrite Hstep.
  destruct (decide (key = k)) as [->|Hne].
  - rewrite (bool_decide_eq_true_2 (k = k)) by done.
    rewrite (bool_decide_eq_true_2 (k ∈ k :: ks))
      by (apply elem_of_cons; by left).
    simpl. destruct (String.prefix "img-" k); simpl.
    + destruct (isExpired now (store !! k)) eqn:He; simpl.
      * by rewrite !andb_false_r.
      * rewrite He. by rewrite andb_false_r.
    + by rewrite andb_false_r.
  - rewrite (bool_decide_eq_false_2 (key = k)) by done. simpl.
    assert (bool_decide (key ∈ k :: ks) = bool_decide (key ∈ ks)) as ->.
    { apply bool_decide_ext. rewrite elem_of_cons. tauto. }
    done.
Qed.

Lemma elem_of_keys key (store : gmap string Stored) :
  key ∈ IdbKeyval.keys store ↔ is_Some (store !! key).
Proof.
  unfold IdbKeyval.keys. rewrite list_elem_of_fmap. split.
  - intros ([k v] & -> & Hin). apply elem_of_map_to_list in Hin. by exists v.
  - intros [v Hv]. exists (key, v). split; [done|].
    by apply elem_of_map_to_list.
Qed.

Lemma cleanupExpiredCache_lookup now (store : gmap string Stored) key :
  cleanupExpiredCache now store !! key
  = if String.prefix "img-" key && isExpired now (store !! key)
    then None else store !! key.
Proof.
  unfold cleanupExpiredCache. rewrite foldl_cleanupKey.
  destruct (store !! key) as [v|] eqn:Hv.
  - rewrite bool_decide_eq_true_2; [done|]. apply elem_of_keys. by exists v.
  - by destruct (bool_decide _ && _ && _), (String.prefix "img-" key).
Qed.

Lemma cleanupExpiredCache_fresh now (store : gmap string Stored) key :
  isFresh now (store !! key) = true →
  cleanupExpiredCache now store !! key = store !! key.
Proof.
  intros Hf. rewrite cleanupExpiredCache_lookup.
  destruct (store !! key) as [[d ts|v]|]; simpl in *; try done;
    try by rewrite andb_false_r.
  apply bool_decide_eq_true in Hf.
  rewrite (bool_decide_eq_false_2 (now - ts > CACHE_EXPIRATION_MS)) by lia.
  by rewrite andb_false_r.
Qed.

(** [cleanupExpiredCache] deletes exactly the entries under an ["img-"] key
    that are older than 24 hours.  It keeps every other key, the five keys
    of the application data among them (they live in the same store), and it
    keeps every entry that [getImage] would still serve. *)
Theorem cleanupExpiredCache_spec (now : Z) (store : gmap string Stored) :
  let store' := cleanupExpiredCache now store in
  (∀ key,
     store' !! key
     = if String.prefix "img-" key && isExpired now (store !! key)
       then None else store !! key)
  ∧ (∀ key, String.prefix "img-" key = false → store' !! key = store !! key)
  ∧ (∀ key, key ∈ [IDB_PROFILE_KEY; IDB_LIST_DATA_KEY; IDB_LAYOUT_CONFIG_KEY;
                    IDB_TRACKED_MEDIA_KEY; IDB_SHARED_DATA_KEY] →
       store' !! key = store !! key)
  ∧ (∀ key, isFresh now (store !! key) = true → store' !! key = store !! key)
  ∧ (∀ key, isExpired now (store' !! key) = true →
       String.prefix "img-" key = false).
Proof.
  intros store'.
  assert (Hmain : ∀ key,
            store' !! key
            = if String.prefix "img-" key && isExpired now (store !! key)
              then None else store !! key).
  { intros key. apply cleanupExpiredCache_lookup. }
  split_and!.
  - done.
  - intros key Hp. by rewrite Hmain, Hp.
  - intros key Hin. rewrite Hmain.
    repeat (apply elem_of_cons in Hin as [->|Hin]; [done|]).
    by apply elem_of_nil in Hin.
  - intros key Hf. by apply cleanupExpiredCache_fresh.
  - intros key He. rewrite Hmain in He.
    destruct (String.prefix "img-" key); [|done]. simpl in He.
    destruct (isExpired now (store !! key)) eqn:He'; [done|]. congruence.
Qed.

(** [getImage] through a cache round trip.  A call that went to the network
    and got a data URL returns it and caches it; every later call for the
    same URL less than 24 hours after it returns the same data URL from the
    cache, without a fetch and without writing, whatever the network would
    answer. *)
Theorem getImage_round_trip
    (now now' : Z) (dataUrl : string) (fetchOutcome' : option string)
    (url : string) (store : gmap string Stored) :
  url ≠ "" →
  isFresh now (store !! cacheKey url) = false →
  now' - now < CACHE_EXPIRATION_MS →
  let first := getImage true now (Some dataUrl) url store in
  returned first = Some dataUrl
  ∧ fetched first = true
  ∧ storeAfter first !! cacheKey url = Some (CachedImage dataUrl now)
  ∧ (∀ key, key ≠ cacheKey url → storeAfter first !! key = store !! key)
  ∧ getImage true now' fetchOutcome' url (storeAfter first)
    = {| returned := Some dataUrl; storeAfter := storeAfter first;
         fetched := false |}.
Proof.
  intros Hurl Hstale Hsoon first.
  assert (Hfirst : first
                   = {| returned := Some dataUrl;
                        storeAfter := <[cacheKey url := CachedImage dataUrl now]> store;
                        fetched := true |}).
  { unfold first, getImage, IdbKeyval.get, IdbKeyval.set.
    rewrite bool_decide_eq_false_2 by done. simpl. by rewrite Hstale. }
  rewrite Hfirst. simpl. split_and!; try done.
  - apply lookup_insert_eq.
  - intros key Hne. by apply lookup_insert_ne.
  - unfold getImage, IdbKeyval.get.
    rewrite bool_decide_eq_false_2 by done. simpl.
    rewrite lookup_insert_eq. simpl.
    by rewrite bool_decide_eq_true_2.
Qed.

Lemma getImage_round_trip_witness :
  let first :=
    getImage true 1700000000000 (Some "data:image/png;base64,AAAA")
      "https://img.example/1.png" ∅ in
  getImage true (1700000000000 + 3600000) None "https://img.example/1.png"
    (storeAfter first)
  = {| returned := Some "data:image/png;base64,AAAA";
       storeAfter := storeAfter first; fetched := false |}.
Proof.
  pose proof (getImage_round_trip 1700000000000 (1700000000000 + 3600000)
                "data:image/png;base64,AAAA" None "https://img.example/1.png" ∅
                ltac:(done) eq_refl ltac:(done)) as (_ & _ & _ & _ & H).
  exact H.
Defined.

(** What [getImage] returns and whether it fetches is the same before and
    after [cleanupExpiredCache] has run at that instant: cleaning never
    costs a cache hit and never turns a miss into a hit.  [getImage] returns
    [null] only when the cache is not ready or the URL is empty; when the
    network fails it returns the URL itself and leaves the store alone; and
    it never writes under a key that does not start with ["img-"]. *)
Theorem getImage_after_cleanup
    (cacheReady : bool) (now : Z) (fetchOutcome : option string) (url : string)
    (store : gmap string Stored) :
  let plain := getImage cacheReady now fetchOutcome url store in
  let cleaned :=
    getImage cacheReady now fetchOutcome url (cleanupExpiredCache now store) in
  returned cleaned = returned plain
  ∧ fetched cleaned = fetched plain
  ∧ (returned plain = None ↔ cacheReady = false ∨ url = "")
  ∧ (fetched plain = true → fetchOutcome = None →
       returned plain = Some url ∧ storeAfter plain = store)
  ∧ (∀ key, String.prefix "img-" key = false →
       storeAfter plain !! key = store !! key).
Proof.
  intros plain cleaned.
  pose proof (cleanupExpiredCache_lookup now store) as Hclean.
  pose proof (cleanupExpiredCache_fresh now store) as Hfresh.
  unfold plain, cleaned, getImage, IdbKeyval.get, IdbKeyval.set.
  destruct cacheReady; simpl.
  2:{ split_and!; try done. split; [by left | done]. }
  case_bool_decide as Hurl; simpl.
  { split_and!; try done. split; [by right | done]. }
  assert (Hnever : ∀ x : string, Some x = None ↔ true = false ∨ url = "").
  { intros x. split; [done | by intros [?|?]]. }
  destruct (isFresh now (store !! cacheKey url)) eqn:Hf.
  - rewrite (Hfresh _ Hf), Hf. simpl. split_and!; try done.
    destruct (store !! cacheKey url) as [[d ts|v]|]; simpl in *; try done.
  - assert (Hf' : isFresh now (cleanupExpiredCache now store !! cacheKey url)
                  = false).
    { rewrite Hclean.
      by destruct (String.prefix "img-" (cacheKey url) && isExpired now _). }
    rewrite Hf'.
    destruct fetchOutcome as [d|]; simpl; split_and!; try done.
    intros key Hp. apply lookup_insert_ne. intros <-.
    by rewrite cacheKey_prefix in Hp.
Qed.

(** ** Connecting, importing and exporting *)

(** [connectToSharedData(url)] *)
Definition connectToSharedData (proxyUrl : string → string) (now : Z)
    (outcome : FetchOutcome) (u : string) (w : SyncWorld) : SyncWorld :=
  let newConfig :=
    {| url := Some u; lastSync := None; lastSize := None; lastEtag := None |} in
  let w := storeSharedDataConfig newConfig w in
  syncSharedData proxyUrl now outcome true w.

(** The body of the [try] block of [importData]'s [reader.onload]; [parsed]
    is the outcome of [JSON.parse] on the file's text (the message of the
    error it throws, or the value). *)
Definition tryImport (parsed : string + Json) (w : SyncWorld)
  : string + SyncWorld :=
  match parsed with
  | inl message => inl message
  | inr data =>
      match data with
      | JNull => inl "Cannot read properties of null (reading 'profile')"
      | _ =>
          let profile := getProperty "profile" data in
          let lists := getProperty "lists" data in
          if falsy profile || falsy lists then inl "Invalid file structure."
          else
            let w :=
              storeSnapshot profile lists (getProperty "layout" data)
                            (getProperty "tracked" data) w in
            let w :=
              syncToast {| t_destructive := false;
                           t_title := "Import Successful";
                           t_description := "Reloading app." |} w in
            inr (scheduleReload w)
      end
  end.

(** [importData(file)] *)
Definition importData (parsed : string + Json) (w : SyncWorld) : SyncWorld :=
  match tryImport parsed w with
  | inr w => w
  | inl message =>
      syncToast {| t_destructive := true; t_title := "Import Failed";
                   t_description := message |} w
  end.

(** The object [exportData] serialises,
    [{ profile: await get(..), lists: .., layout: .., tracked: .. }], as
    [JSON.stringify] writes it: a key whose value is [undefined] is left
    out. *)
Definition exportedSnapshot (w : SyncWorld) : Json :=
  JObject
    (omap (λ kv : string * option Json, (kv.1,.) <$> kv.2)
       [("profile", idb_profile w); ("lists", idb_lists w);
        ("layout", idb_layout w); ("tracked", idb_trackedJson w)]).

(** [exportData()]: the file offered for download and the world after. *)
Definition exportData (w : SyncWorld) : Json * SyncWorld :=
  (exportedSnapshot w,
   syncToast {| t_destructive := false; t_title := "Download Started";
                t_description := "" |} w).

Lemma exportedSnapshot_properties w :
  getProperty "profile" (exportedSnapshot w) = idb_profile w
  ∧ getProperty "lists" (exportedSnapshot w) = idb_lists w
  ∧ getProperty "layout" (exportedSnapshot w) = idb_layout w
  ∧ getProperty "tracked" (exportedSnapshot w) = idb_trackedJson w.
Proof.
  unfold exportedSnapshot.
  by destruct (idb_profile w), (idb_lists w), (idb_layout w),
    (idb_trackedJson w).
Qed.

(** Export on one device, import on another (the file's text parsed back to
    the value that was serialised).  When the exporter's profile and lists
    are both truthy, the importer's profile and lists become the exporter's;
    layout and tracked media become the exporter's when the exporter had
    truthy ones and otherwise stay what the importer had.  When the
    exporter lacks a truthy profile or lists, the import fails and the
    importer's stores are untouched.  Either way the shared-data config of
    the importer is left alone, and importing one's own export changes no
    store. *)
Theorem export_then_import (exporter importer : SyncWorld) :
  let file := (exportData exporter).1 in
  let w' := importData (inr file) importer in
  (falsy (idb_profile exporter) = false → falsy (idb_lists exporter) = false →
     idb_profile w' = idb_profile exporter
     ∧ idb_lists w' = idb_lists exporter
     ∧ idb_layout w'
       = (if falsy (idb_layout exporter) then idb_layout importer
          else idb_layout exporter)
     ∧ idb_trackedJson w'
       = (if falsy (idb_trackedJson exporter) then idb_trackedJson importer
          else idb_trackedJson exporter)
     ∧ reloads w' = S (reloads importer))
  ∧ (falsy (idb_profile exporter) || falsy (idb_lists exporter) = true →
     idb_profile w' = idb_profile importer
     ∧ idb_lists w' = idb_lists importer
     ∧ idb_layout w' = idb_layout importer
     ∧ idb_trackedJson w' = idb_trackedJson importer
     ∧ reloads w' = reloads importer
     ∧ syncToasts w'
       = syncToasts importer
         ++ [{| t_destructive := true; t_title := "Import Failed";
                t_description := "Invalid file structure." |}])
  ∧ idb_shared w' = idb_shared importer
  ∧ sharedDataConfig w' = sharedDataConfig importer
  ∧ (importer = exporter →
     idb_profile w' = idb_profile exporter
     ∧ idb_lists w' = idb_lists exporter
     ∧ idb_layout w' = idb_layout exporter
     ∧ idb_trackedJson w' = idb_trackedJson exporter).
Proof.
  intros file w'.
  destruct (exportedSnapshot_properties exporter) as (Hp & Hl & Hy & Ht).
  assert (Hw' : w' = match
                       (if falsy (idb_profile exporter)
                           || falsy (idb_lists exporter)
                        then inl "Invalid file structure."
                        else inr (scheduleReload
                               (syncToast {| t_destructive := false;
                                             t_title := "Import Successful";
                                             t_description := "Reloading app." |}
                                  (storeSnapshot (idb_profile exporter)
                                     (idb_lists exporter) (idb_layout exporter)
                                     (idb_trackedJson exporter) importer))))
                     with
                     | inr w => w
                     | inl message =>
                         syncToast {| t_destructive := true;
                                      t_title := "Import Failed";
                                      t_description := message |} importer
                     end).
  { unfold w', importData, tryImport, file, exportData. cbn [fst].
    rewrite Hp, Hl, Hy, Ht. done. }
  rewrite Hw'. clear Hw' w' file.
  destruct (falsy (idb_profile exporter)) eqn:Hfp;
    destruct (falsy (idb_lists exporter)) eqn:Hfl; simpl.
  - split_and!; try done. intros Heq. subst importer. by split_and!.
  - split_and!; try done. intros Heq. subst importer. by split_and!.
  - split_and!; try done. intros Heq. subst importer. by split_and!.
  - split_and!; try done.
    intros Heq. subst importer. split_and!; try done.
    + by destruct (falsy (idb_layout exporter)).
    + by destruct (falsy (idb_trackedJson exporter)).
Qed.

(** [connectToSharedData(url)] with a non-empty url, while no sync is in
    flight: the client makes one request, without a conditional header.  A
    valid snapshot leaves the client connected to the url with the
    response's ETag, size and the time of the sync, and the next automatic
    sync sends that ETag as [If-None-Match].  A 304 answer leaves it
    connected with nothing synced.  Anything else leaves it disconnected:
    the url just stored is cleared again. *)
Theorem connectToSharedData_spec
    (proxyUrl : string → string) (now : Z) (outcome : FetchOutcome)
    (u : string) (w : SyncWorld) :
  u ≠ "" → isSyncing w = false →
  let w' := connectToSharedData proxyUrl now outcome u w in
  fetches w' = fetches w ++ [(proxyUrl u, [])]
  ∧ (∀ response data,
       outcome = FetchResolved response → snapshotOf outcome = Some data →
       let synced :=
         {| url := Some u; lastSync := Some now;
            lastSize := Some (default 0 (contentLength response));
            lastEtag := etag response |} in
       sharedDataConfig w' = synced ∧ idb_shared w' = Some synced
       ∧ idb_profile w' = getProperty "profile" data
       ∧ idb_lists w' = getProperty "lists" data
       ∧ (∀ e now' outcome', etag response = Some e → e ≠ "" →
            fetches (syncSharedData proxyUrl now' outcome' false w')
            = fetches w' ++ [(proxyUrl u, [("If-None-Match", e)])]))
  ∧ (notModified outcome = true →
       let fresh :=
         {| url := Some u; lastSync := None; lastSize := None;
            lastEtag := None |} in
       sharedDataConfig w' = fresh ∧ idb_shared w' = Some fresh
       ∧ idb_profile w' = idb_profile w ∧ idb_lists w' = idb_lists w)
  ∧ (notModified outcome = false → snapshotOf outcome = None →
       sharedDataConfig w' = disconnectedConfig
       ∧ idb_shared w' = Some disconnectedConfig
       ∧ idb_profile w' = idb_profile w ∧ idb_lists w' = idb_lists w).
Proof.
  intros Hu Hbusy w'.
  set (fresh := {| url := Some u; lastSync := None; lastSize := None;
                   lastEtag := None |}).
  set (w0 := storeSharedDataConfig fresh w).
  assert (Hc : connected w0 fresh u) by (by repeat split).
  assert (Hw' : w' = syncSharedData proxyUrl now outcome true w0) by done.
  split_and!.
  - rewrite Hw'. by rewrite (syncSharedData_fetches _ _ _ _ _ _ _ Hc).
  - intros response data Hout Hsnap synced.
    rewrite Hw', (syncSharedData_connected _ _ _ _ _ _ _ Hc). cbv zeta.
    destruct (trySync_snapshot now fresh true outcome
                (recordFetch (proxyUrl u) (requestHeaders true fresh)
                   (setIsSyncing true w0)) data Hsnap)
      as (response' & Hout' & ->).
    assert (response' = response) as -> by congruence.
    split_and!; try done.
    intros e now' outcome' He Hne.
    rewrite (syncSharedData_fetches _ _ _ _ _ synced u).
    + unfold requestHeaders. simpl. rewrite He.
      by rewrite bool_decide_eq_false_2.
    + by repeat split.
  - intros Hnm fresh'.
    rewrite Hw', (syncSharedData_connected _ _ _ _ _ _ _ Hc). cbv zeta.
    destruct outcome as [|response]; [done|]. simpl in Hnm.
    unfold trySync. by rewrite Hnm.
  - intros Hnm Hsnap.
    rewrite Hw', (syncSharedData_connected _ _ _ _ _ _ _ Hc). cbv zeta.
    by destruct (trySync_fails now fresh true outcome
                   (recordFetch (proxyUrl u) (requestHeaders true fresh)
                      (setIsSyncing true w0)) Hnm Hsnap) as [message ->].
Qed.

(** A 200 response that carries a whole snapshot. *)
Definition fullSnapshot : Response :=
  {| status := 200; statusText := "OK"; etag := Some "W/9";
     contentLength := Some 64;
     body :=
       inr (JObject [("profile", JObject [("username", JString "bob")]);
                     ("lists", JObject [("planToWatch", JArray [JNumber 7])])]) |}.

Lemma connectToSharedData_spec_witness :
  let w' :=
    connectToSharedData relay 1700000180000 (FetchResolved fullSnapshot)
      gistUrl syncedWorld in
  lastEtag (sharedDataConfig w') = Some "W/9"
  ∧ fetches (syncSharedData relay 1700000360000 (FetchRejected "offline") false w')
    = fetches w' ++ [(relay gistUrl, [("If-None-Match", "W/9")])].
Proof.
  pose proof (connectToSharedData_spec relay 1700000180000
                (FetchResolved fullSnapshot) gistUrl syncedWorld
                ltac:(done) eq_refl) as (_ & H & _).
  destruct (H fullSnapshot _ eq_refl eq_refl) as (H1 & _ & _ & _ & H2).
  split.
  - by rewrite H1.
  - apply H2; done.
Defined.

(** ** The funnel when the guard lets the write through *)

(** After a funnel update the stored list data is the React state exactly
    when the guard did not veto: the usage estimate is at most the quota
    ([storageQuota], or 1 GiB when that is 0), or the platform offers no
    estimate at all (the guard fails open).  An allowed write shows no toast
    and logs nothing. *)
Theorem funnel_store_follows_state
    (env : Env) (getNewData : ListData → PartialListData) (w : World) :
  let updatedData := spread (listData w) (getNewData (listData w)) in
  let w' := updateAndPersistListData env getNewData w in
  (idb_listData w' = Some (listData w') ↔ quotaExceeded env updatedData = false)
  ∧ (storageEstimate env = None → quotaExceeded env updatedData = false)
  ∧ (∀ usage, storageEstimate env = Some usage →
       default 0 usage ≤ effectiveQuota updatedData →
       quotaExceeded env updatedData = false)
  ∧ (quotaExceeded env updatedData = false →
       toasts w' = toasts w ∧ logs w' = logs w).
Proof.
  intros updatedData w'. split_and!.
  - unfold w'. rewrite updateAndPersistListData_idb_listData,
      updateAndPersistListData_listData. cbv zeta. fold updatedData.
    destruct (quotaExceeded env updatedData); [|done].
    split; [|done]. intros [= Heq].
    apply (f_equal length) in Heq.
    rewrite length_app in Heq. simpl in Heq. lia.
  - unfold quotaExceeded. by intros ->.
  - unfold quotaExceeded. intros usage -> Hle.
    apply bool_decide_eq_false. lia.
  - unfold w', updateAndPersistListData, checkStorageAndNotify.
    unfold quotaExceeded, effectiveQuota. fold updatedData.
    destruct (storageEstimate env); [|done].
    by case_bool_decide.
Qed.

(** ** Loading the tracked-media cache *)

(** [(item as Partial<Anime>).synopsis], as a condition. *)
Definition hasSynopsis (item : Anime) : bool :=
  match a_synopsis item with
  | Some text => negb (bool_decide (text = ""))
  | None => false
  end.

(** [loadTrackedMedia()]; [isLocal] is [authMode === 'local']. *)
Definition loadTrackedMedia (isLocal : bool) (w : World) : World :=
  if isLocal then
    let media := default [] (idb_tracked w) in
    let cleanedMedia :=
      (λ item, if hasSynopsis item then withoutSynopsis item else item)
        <$> media in
    let w := setTrackedMedia cleanedMedia w in
    if bool_decide (0 < length media)%nat && existsb hasSynopsis media then
      set_IDB_TRACKED_MEDIA_KEY cleanedMedia w
    else w
  else setTrackedMedia [] w.

(** No record of the list carries a synopsis. *)
Definition noSynopsis (tracked : list Anime) : Prop :=
  Forall (λ item, hasSynopsis item = false) tracked.

Lemma noSynopsis_filter (P : Anime → Prop) `{∀ m, Decision (P m)} tracked :
  noSynopsis tracked → noSynopsis (filter P tracked).
Proof.
  unfold noSynopsis. rewrite !Forall_forall.
  intros Hall m Hm%list_elem_of_filter. apply Hall. tauto.
Qed.

Lemma noSynopsis_snoc tracked media :
  noSynopsis tracked → noSynopsis (tracked ++ [withoutSynopsis media]).
Proof.
  intros Hall. apply Forall_app. split; [done|]. by repeat constructor.
Qed.

(** Synopses stay out of the tracked-media cache.  [loadTrackedMedia]
    strips them from what the store holds, keeping the records' ids and
    order, and rewrites the store only when it had to strip one; the timer
    callbacks of the three toggles add records without their synopsis and so
    keep the store, and the React state with it, free of synopses. *)
Theorem tracked_media_carries_no_synopsis
    (SENSITIVE_GENRES : list string) (media : Anime) (w : World) :
  let loaded := loadTrackedMedia true w in
  let viaList := handleToggleListMembership_timeout SENSITIVE_GENRES media w in
  let viaCurrently := toggleCurrently_timeout media w in
  noSynopsis (trackedMedia loaded)
  ∧ noSynopsis (default [] (idb_tracked loaded))
  ∧ trackedIds (trackedMedia loaded) = trackedIds (default [] (idb_tracked w))
  ∧ (noSynopsis (default [] (idb_tracked w)) →
       idb_tracked loaded = idb_tracked w
       ∧ trackedMedia loaded = default [] (idb_tracked w))
  ∧ trackedMedia (loadTrackedMedia false w) = []
  ∧ (noSynopsis (default [] (idb_tracked w)) →
       noSynopsis (default [] (idb_tracked viaList))
       ∧ noSynopsis (default [] (idb_tracked viaCurrently))
       ∧ (noSynopsis (trackedMedia w) →
            noSynopsis (trackedMedia viaList)
            ∧ noSynopsis (trackedMedia viaCurrently))).
Proof.
  intros loaded viaList viaCurrently.
  set (strip := λ item, if hasSynopsis item then withoutSynopsis item else item).
  assert (Hstrip : ∀ l, noSynopsis (strip <$> l)).
  { intros l. apply Forall_fmap, Forall_true. intros item. unfold strip. simpl.
    by destruct (hasSynopsis item) eqn:Hs. }
  assert (Hclean : ∀ l, noSynopsis l → strip <$> l = l ∧ existsb hasSynopsis l = false).
  { intros l. induction 1 as [|item l Hitem Hl [IH1 IH2]]; [done|].
    rewrite fmap_cons, IH1. simpl. rewrite IH2. unfold strip.
    by rewrite Hitem. }
  assert (Hids : ∀ l, trackedIds (strip <$> l) = trackedIds l).
  { intros l. unfold trackedIds. rewrite <- list_fmap_compose.
    apply list_fmap_ext. intros i item _. unfold strip. simpl.
    by destruct (hasSynopsis item). }
  assert (Hloaded : trackedMedia loaded = strip <$> default [] (idb_tracked w)).
  { unfold loaded, loadTrackedMedia. fold strip.
    by destruct (bool_decide _ && existsb _ _). }
  split_and!.
  - rewrite Hloaded. apply Hstrip.
  - unfold loaded, loadTrackedMedia. fold strip.
    destruct (bool_decide _ && existsb _ _) eqn:Hsome; simpl; [apply Hstrip|].
    apply andb_false_iff in Hsome as [Hlen|Hnone].
    + apply bool_decide_eq_false in Hlen.
      destruct (default [] (idb_tracked w)); [constructor | simpl in Hlen; lia].
    + apply Forall_forall. intros item Hin.
      destruct (hasSynopsis item) eqn:Hs; [|done].
      assert (existsb hasSynopsis (default [] (idb_tracked w)) = true); [|congruence].
      apply existsb_exists. exists item. split; [|done].
      by apply list_elem_of_In.
  - rewrite Hloaded. apply Hids.
  - intros Hno. destruct (Hclean _ Hno) as [Hsame Hnone].
    unfold loaded, loadTrackedMedia. fold strip.
    rewrite Hnone, andb_false_r. simpl. by rewrite Hsame.
  - done.
  - intros Hstore. split_and!.
    + unfold viaList, handleToggleListMembership_timeout.
      destruct (isInAnyList _ _).
      * destruct (negb (isTracked _ _)); simpl; [|done].
        by apply noSynopsis_snoc.
      * simpl. by apply noSynopsis_filter.
    + unfold viaCurrently, toggleCurrently_timeout.
      destruct (negb (isTracked _ _)); simpl; [|done].
      by apply noSynopsis_snoc.
    + intros Hstate. split.
      * unfold viaList, handleToggleListMembership_timeout.
        destruct (isInAnyList _ _).
        -- destruct (negb (isTracked _ _)); simpl; [|done].
           by apply noSynopsis_snoc.
        -- simpl. by apply noSynopsis_filter.
      * unfold viaCurrently, toggleCurrently_timeout.
        destruct (negb (isTracked _ _)); simpl; [|done].
        by apply noSynopsis_snoc.
Qed.

(** ** The character list (components/anime/character-list.tsx) *)

Record JikanCharacter := {
  c_mal_id : Z;
  c_name : string;
  c_role : string;
}.

Definition INITIAL_VISIBLE_COUNT : nat := 12.
Definition LOAD_MORE_COUNT : nat := 12.

(** [[...mainCharacters, ...supportingCharacters]] *)
Definition allCharacters (characters : list JikanCharacter)
  : list JikanCharacter :=
  let mainCharacters := filter (λ c, c_role c = "Main") characters in
  let supportingCharacters :=
    filter (λ c, c_role c = "Supporting") characters in
  mainCharacters ++ supportingCharacters.

(** [allCharacters.slice(0, visibleCount)] *)
Definition visibleCharacters (visibleCount : nat)
    (characters : list JikanCharacter) : list JikanCharacter :=
  take visibleCount (allCharacters characters).

Definition hasMoreToLoad (visibleCount : nat)
    (characters : list JikanCharacter) : bool :=
  bool_decide (visibleCount < length (allCharacters characters))%nat.

(** [setVisibleCount(prev => prev + LOAD_MORE_COUNT)], and the count after
    a number of clicks on "show more". *)
Definition showMore (prev : nat) : nat := (prev + LOAD_MORE_COUNT)%nat.

Definition visibleCountAfter (clicks : nat) : nat :=
  Nat.iter clicks showMore INITIAL_VISIBLE_COUNT.

Lemma visibleCountAfter_eq clicks :
  visibleCountAfter clicks = (12 * (clicks + 1))%nat.
Proof.
  unfold visibleCountAfter. induction clicks as [|k IH]; [done|].
  rewrite Nat.iter_succ, IH. unfold showMore, LOAD_MORE_COUNT. lia.
Qed.

(** The list shows Main characters before Supporting ones and nobody of
    another role; what is visible is a prefix of that list, twelve more with
    every click; and the "show more" button is gone exactly when the whole
    list is visible, which then holds every Main and Supporting character
    of the input. *)
Theorem characterList_pagination
    (characters : list JikanCharacter) (clicks : nat) :
  let visibleCount := visibleCountAfter clicks in
  let visible := visibleCharacters visibleCount characters in
  visible `prefix_of` allCharacters characters
  ∧ length visible
    = ((12 * (clicks + 1)) `min` length (allCharacters characters))%nat
  ∧ (∀ c, c ∈ visible → c_role c = "Main" ∨ c_role c = "Supporting")
  ∧ (hasMoreToLoad visibleCount characters = false
     ↔ visible = allCharacters characters)
  ∧ (hasMoreToLoad visibleCount characters = false →
     ∀ c, c ∈ characters → c_role c = "Main" ∨ c_role c = "Supporting" →
          c ∈ visible)
  ∧ ((length (allCharacters characters) ≤ 12 * (clicks + 1))%nat →
     hasMoreToLoad visibleCount characters = false).
Proof.
  intros visibleCount visible.
  assert (Hcount : visibleCount = (12 * (clicks + 1))%nat)
    by apply visibleCountAfter_eq.
  assert (Hall : ∀ c, c ∈ allCharacters characters
                      ↔ c ∈ characters
                        ∧ (c_role c = "Main" ∨ c_role c = "Supporting")).
  { intros c. unfold allCharacters.
    rewrite elem_of_app, !list_elem_of_filter. tauto. }
  assert (Hdone : hasMoreToLoad visibleCount characters = false
                  ↔ visible = allCharacters characters).
  { unfold hasMoreToLoad, visible, visibleCharacters.
    rewrite bool_decide_eq_false. split.
    - intros Hge. apply take_ge. lia.
    - intros Heq Hlt. apply (f_equal length) in Heq.
      rewrite length_take in Heq. lia. }
  split_and!.
  - apply prefix_take.
  - unfold visible, visibleCharacters. by rewrite length_take, Hcount.
  - intros c Hc. apply (Hall c).
    unfold visible, visibleCharacters in Hc.
    destruct (prefix_take (allCharacters characters) visibleCount) as [k Hk].
    rewrite Hk. apply elem_of_app. by left.
  - done.
  - intros Hno c Hc Hrole. apply Hdone in Hno. rewrite Hno. by apply Hall.
  - intros Hle. unfold hasMoreToLoad. apply bool_decide_eq_false. lia.
Qed.

(** ** The list of seasons (requests.ts, [getSeasonsList]) *)

(** An item of [SeasonList.media]. *)
Record SeasonItem := {
  season : option string;
  seasonYear : option Z;
}.

(** [seasonsMap.get(year)?.add(s)], with [seasonsMap.set(year, new Set())]
    first when the year is new.  The [Map] is the list of its entries in
    insertion order, each [Set] the list of its elements in insertion
    order. *)
Fixpoint addSeason (year : Z) (s : string) (seasonsMap : list (Z * list string))
  : list (Z * list string) :=
  match seasonsMap with
  | [] => [(year, [s])]
  | (y, seasons) :: rest =>
      if bool_decide (y = year) then
        (y, if bool_decide (s ∈ seasons) then seasons else seasons ++ [s]) :: rest
      else (y, seasons) :: addSeason year s rest
  end.

(** The body of [media.forEach(item => ...)]. *)
Definition collectSeason (toLowerCase : string → string)
    (seasonsMap : list (Z * list string)) (item : SeasonItem)
  : list (Z * list string) :=
  match seasonYear item, season item with
  | Some year, Some s =>
      if bool_decide (year = 0) || bool_decide (s = "") then seasonsMap
      else addSeason year (toLowerCase s) seasonsMap
  | _, _ => seasonsMap
  end.

(** The order of [.sort((a, b) => b.year - a.year)]. *)
Definition byYearDescending (a b : Z * list string) : Prop := b.1 ≤ a.1.

#[global] Instance byYearDescending_dec a b : Decision (byYearDescending a b).
Proof. unfold byYearDescending. apply _. Defined.

#[global] Instance byYearDescending_total : Total byYearDescending.
Proof. intros a b. unfold byYearDescending. lia. Qed.

#[global] Instance byYearDescending_trans : Transitive byYearDescending.
Proof. intros a b c. unfold byYearDescending. lia. Qed.

(** [getSeasonsList()]: [media] is [response?.SeasonList?.media] ([None]
    when the catalogue gave nothing), [toLowerCase] the string method. *)
Definition getSeasonsList (toLowerCase : string → string)
    (media : option (list SeasonItem)) : list (Z * list string) :=
  let seasonsMap := foldl (collectSeason toLowerCase) [] (default [] media) in
  merge_sort byYearDescending seasonsMap.

(** The season [s] is listed under [year]. *)
Definition listsSeason (seasonsMap : list (Z * list string)) (year : Z)
    (s : string) : Prop :=
  ∃ seasons, (year, seasons) ∈ seasonsMap ∧ s ∈ seasons.

(** Years occur once, and no year lists a season twice. *)
Definition wellGrouped (seasonsMap : list (Z * list string)) : Prop :=
  NoDup seasonsMap.*1 ∧ Forall (λ entry, NoDup entry.2) seasonsMap.

Lemma addSeason_keys year s m y :
  y ∈ (addSeason year s m).*1 ↔ y ∈ m.*1 ∨ y = year.
Proof.
  induction m as [|[y0 ss] m IH]; simpl.
  - rewrite list_elem_of_singleton, elem_of_nil. tauto.
  - case_bool_decide as Hy; simpl; rewrite !elem_of_cons.
    + subst. tauto.
    + rewrite IH. tauto.
Qed.

Lemma addSeason_wellGrouped year s m :
  wellGrouped m → wellGrouped (addSeason year s m).
Proof.
  unfold wellGrouped. induction m as [|[y0 ss] m IH]; simpl.
  - intros _. split; [apply NoDup_singleton|].
    apply Forall_cons. split; [apply NoDup_singleton | constructor].
  - intros [[Hy0 Hnd]%NoDup_cons [Hss Hall]%Forall_cons]. simpl in Hss.
    case_bool_decide as Hy; simpl.
    + split; [by apply NoDup_cons|]. apply Forall_cons. split; [|done]. simpl.
      case_bool_decide as Hin; [done|].
      apply NoDup_app. split_and!; [done| |apply NoDup_singleton].
      intros x Hx Hx'. apply list_elem_of_singleton in Hx' as ->. done.
    + destruct IH as [IH1 IH2]; [done|]. split.
      * apply NoDup_cons. split; [|done].
        rewrite addSeason_keys. intros [?|?]; [done|]. by subst.
      * by apply Forall_cons.
Qed.

Lemma addSeason_listsSeason year s m y' s' :
  listsSeason (addSeason year s m) y' s'
  ↔ listsSeason m y' s' ∨ (y' = year ∧ s' = s).
Proof.
  unfold listsSeason. induction m as [|[y0 ss] m IH]; simpl.
  - split.
    + intros (seasons & Hin%list_elem_of_singleton & Hs).
      injection Hin as -> ->. apply list_elem_of_singleton in Hs. by right.
    + intros [(seasons & Hin & _)|[-> ->]]; [by apply elem_of_nil in Hin|].
      exists [s]. split; by apply list_elem_of_singleton.
  - case_bool_decide as Hy.
    + subst y0. split.
      * intros (seasons & Hin & Hs). apply elem_of_cons in Hin as [Heq|Hin].
        -- injection Heq as -> ->.
           case_bool_decide as Hmem.
           ++ left. exists ss. split; [apply elem_of_cons; by left | done].
           ++ apply elem_of_app in Hs as [Hs|Hs%list_elem_of_singleton].
              ** left. exists ss. split; [apply elem_of_cons; by left | done].
              ** by right.
        -- left. exists seasons. split; [apply elem_of_cons; by right | done].
      * intros [(seasons & Hin & Hs)|[-> ->]].
        -- apply elem_of_cons in Hin as [Heq|Hin].
           ++ injection Heq as -> ->. eexists. split; [apply elem_of_cons; by left|].
              case_bool_decide; [done|]. apply elem_of_app. by left.
           ++ exists seasons. split; [apply elem_of_cons; by right | done].
        -- eexists. split; [apply elem_of_cons; by left|].
           case_bool_decide; [done|]. apply elem_of_app. right.
           by apply list_elem_of_singleton.
    + split.
      * intros (seasons & Hin & Hs). apply elem_of_cons in Hin as [Heq|Hin].
        -- injection Heq as -> ->. left. exists ss.
           split; [apply elem_of_cons; by left | done].
        -- destruct (proj1 IH) as [(seasons' & Hin' & Hs')|Hnew];
             [by exists seasons | | by right].
           left. exists seasons'. split; [apply elem_of_cons; by right | done].
      * intros [(seasons & Hin & Hs)|Hnew].
        -- apply elem_of_cons in Hin as [Heq|Hin].
           ++ injection Heq as -> ->. exists ss.
              split; [apply elem_of_cons; by left | done].
           ++ destruct (proj2 IH) as (seasons' & Hin' & Hs');
                [left; by exists seasons|].
              exists seasons'. split; [apply elem_of_cons; by right | done].
        -- destruct (proj2 IH) as (seasons' & Hin' & Hs'); [by right|].
           exists seasons'. split; [apply elem_of_cons; by right | done].
Qed.

(** An item contributes the lower-cased season under its year. *)
Definition contributes (toLowerCase : string → string) (item : SeasonItem)
    (year : Z) (s : string) : Prop :=
  ∃ s0, seasonYear item = Some year ∧ year ≠ 0
        ∧ season item = Some s0 ∧ s0 ≠ "" ∧ toLowerCase s0 = s.

Lemma collectSeason_spec toLowerCase m item :
  (wellGrouped m → wellGrouped (collectSeason toLowerCase m item))
  ∧ ∀ year s,
      listsSeason (collectSeason toLowerCase m item) year s
      ↔ listsSeason m year s ∨ contributes toLowerCase item year s.
Proof.
  unfold collectSeason, contributes.
  destruct (seasonYear item) as [y|]; [|split; [done|]; intros; split;
    [by left | by intros [?|(? & ? & _)]]].
  destruct (season item) as [s0|]; [|split; [done|]; intros; split;
    [by left | by intros [?|(? & _ & _ & ? & _)]]].
  destruct (bool_decide (y = 0)) eqn:Hy; simpl.
  { apply bool_decide_eq_true in Hy. split; [done|]. intros; split;
      [by left|]. intros [?|(? & [= <-] & ? & _)]; done. }
  destruct (bool_decide (s0 = "")) eqn:Hs; simpl.
  { apply bool_decide_eq_true in Hs. split; [done|]. intros; split;
      [by left|]. intros [?|(? & _ & _ & [= <-] & ? & _)]; done. }
  apply bool_decide_eq_false in Hy, Hs.
  split; [apply addSeason_wellGrouped|].
  intros year s. rewrite addSeason_listsSeason. split.
  - intros [?|[-> ->]]; [by left|]. right. by exists s0.
  - intros [?|(s1 & [= <-] & _ & [= <-] & _ & <-)]; [by left | by right].
Qed.

Lemma foldl_collectSeason toLowerCase media :
  ∀ m,
    (wellGrouped m → wellGrouped (foldl (collectSeason toLowerCase) m media))
    ∧ ∀ year s,
        listsSeason (foldl (collectSeason toLowerCase) m media) year s
        ↔ listsSeason m year s
          ∨ ∃ item, item ∈ media ∧ contributes toLowerCase item year s.
Proof.
  induction media as [|item media IH]; intros m; cbn [foldl].
  - split; [done|]. intros year s. split; [by left|].
    intros [?|(item & Hin & _)]; [done|]. by apply elem_of_nil in Hin.
  - destruct (IH (collectSeason toLowerCase m item)) as [IH1 IH2].
    destruct (collectSeason_spec toLowerCase m item) as [Hc1 Hc2].
    split; [by intros ?%Hc1%IH1|].
    intros year s. rewrite IH2, Hc2. split.
    + intros [[?|?]|(item' & Hin & Hc)]; [by left | |].
      * right. exists item. split; [apply elem_of_cons; by left | done].
      * right. exists item'. split; [apply elem_of_cons; by right | done].
    + intros [?|(item' & Hin & Hc)]; [left; by left|].
      apply elem_of_cons in Hin as [->|Hin]; [left; by right|].
      right. by exists item'.
Qed.

(** [getSeasonsList] groups the catalogue's items by year: the years come
    in descending order, each once; no year lists a season twice; and a
    season is listed under a year exactly when some item has that year (not
    0) and a non-empty season whose lower-cased form it is.  Without a
    catalogue answer the list is empty. *)
Theorem getSeasonsList_spec
    (toLowerCase : string → string) (media : option (list SeasonItem)) :
  let result := getSeasonsList toLowerCase media in
  StronglySorted byYearDescending result
  ∧ NoDup result.*1
  ∧ Forall (λ entry, NoDup entry.2) result
  ∧ (∀ year s,
       listsSeason result year s
       ↔ ∃ item, item ∈ default [] media
                 ∧ contributes toLowerCase item year s)
  ∧ (media = None → result = []).
Proof.
  intros result. unfold result, getSeasonsList.
  destruct (foldl_collectSeason toLowerCase (default [] media) [])
    as [Hwell Hlists].
  destruct Hwell as [Hkeys Hsets]; [split; constructor|].
  pose proof (merge_sort_Permutation byYearDescending
                (foldl (collectSeason toLowerCase) [] (default [] media)))
    as Hperm.
  split_and!.
  - apply StronglySorted_merge_sort; apply _.
  - by rewrite Hperm.
  - by rewrite Hperm.
  - intros year s. unfold listsSeason at 1.
    setoid_rewrite Hperm. fold (listsSeason
      (foldl (collectSeason toLowerCase) [] (default [] media)) year s).
    rewrite Hlists. split; [|by right].
    intros [(seasons & Hin & _)|?]; [by apply elem_of_nil in Hin | done].
  - by intros ->.
Qed.

(** ** When a sync call does anything *)

(** [currentConfig?.url] is set and no sync is in flight. *)
Definition readyToSync (w : SyncWorld) : bool :=
  match idb_shared w with
  | Some currentConfig =>
      match url currentConfig with
      | Some u => negb (bool_decide (u = "")) && negb (isSyncing w)
      | None => false
      end
  | None => false
  end.

(** A sync call that finds no stored url, or finds another sync in flight,
    does nothing: no request, no write, no toast.  Every other call makes
    exactly one request and ends with the busy flag cleared, whatever the
    network answers, so a failure can never leave the client stuck
    "syncing". *)
Theorem syncSharedData_runs_iff_ready
    (proxyUrl : string → string) (now : Z) (outcome : FetchOutcome)
    (isManualTrigger : bool) (w : SyncWorld) :
  let w' := syncSharedData proxyUrl now outcome isManualTrigger w in
  (readyToSync w = false → w' = w)
  ∧ (readyToSync w = true →
       length (fetches w') = S (length (fetches w)) ∧ isSyncing w' = false)
  ∧ (isSyncing w = true → w' = w).
Proof.
  intros w'. split_and!.
  - unfold w', readyToSync, syncSharedData.
    destruct (idb_shared w) as [c|]; [|done].
    destruct (url c) as [u|]; [|done].
    case_bool_decide; [done|]. simpl. by destruct (isSyncing w).
  - unfold readyToSync. intros Hready.
    destruct (idb_shared w) as [c|] eqn:Hc; [|done].
    destruct (url c) as [u|] eqn:Hu; [|done].
    apply andb_true_iff in Hready as [Hne Hbusy].
    apply negb_true_iff in Hne, Hbusy. apply bool_decide_eq_false in Hne.
    assert (Hconn : connected w c u) by done.
    split.
    + unfold w'. rewrite (syncSharedData_fetches _ _ _ _ _ _ _ Hconn).
      rewrite length_app. simpl. lia.
    + unfold w'. by rewrite (syncSharedData_connected _ _ _ _ _ _ _ Hconn).
  - intros Hbusy. unfold w', syncSharedData.
    destruct (idb_shared w) as [c|]; [|done].
    destruct (url c) as [u|]; [|done].
    case_bool_decide; [done|]. by rewrite Hbusy.
Qed.

(** ** Genres and tags of a catalogue query *)

(** [getHiddenGenres] sorts the hidden names into [genres] and [tags] by the
    type of their first entry in the catalogue: no name lands in both, and
    none is lost between the two but the names the catalogue does not class
    as genre or tag.  List data passed as argument wins over the stored
    copy; with neither, the built-in list alone is hidden.  While content is
    locked neither list repeats a name. *)
Theorem getHiddenGenres_split
    (SENSITIVE_GENRES : list string) (genres_list : list GenreEntry)
    (stored listData : option ListData) :
  let result := getHiddenGenres SENSITIVE_GENRES genres_list stored listData in
  (∀ x, x ∈ result.1 → typeOfGenre genres_list x = Some "genre")
  ∧ (∀ x, x ∈ result.2 → typeOfGenre genres_list x = Some "tag")
  ∧ (∀ x, x ∈ result.1 → x ∉ result.2)
  ∧ (∀ d, listData = Some d →
       result = getHiddenGenres SENSITIVE_GENRES genres_list None (Some d))
  ∧ (listData = None → stored = None →
       ∀ x, x ∈ result.1 ++ result.2
            ↔ x ∈ SENSITIVE_GENRES ∧ knownGenre genres_list x)
  ∧ (∀ d, listData = Some d → sensitiveContentUnlocked d = false →
       NoDup result.1 ∧ NoDup result.2).
Proof.
  intros result. unfold result, getHiddenGenres. simpl. split_and!.
  - intros x Hx. apply list_elem_of_filter in Hx. tauto.
  - intros x Hx. apply list_elem_of_filter in Hx. tauto.
  - intros x [Hg _]%list_elem_of_filter [Ht _]%list_elem_of_filter. congruence.
  - by intros d ->.
  - intros -> -> x. unfold knownGenre. simpl.
    rewrite elem_of_app, !list_elem_of_filter. split.
    + intros [(Ht & _ & Hs)|(Ht & _ & Hs)]; tauto.
    + intros [Hs [Ht|Ht]]; [left|right];
        (split; [done|]; split; [|done]); by eapply typeOfGenre_Some_name.
  - intros d -> Hlocked. unfold finalHidden. rewrite Hlocked.
    split; repeat apply NoDup_filter; apply arrayFromSet_NoDup.
Qed.
